(** * Timing hooks of the React topics demo: debounce and throttle

    Shallow embedding of the timing helpers of
    [src/components/DebounceThrottleExamples.jsx] ([useDebounce],
    [useThrottle]) and of the inline debounce of [useWindowSize] in
    [src/components/CustomHooksExamples.jsx], together with the part of the
    host they talk to: the clock read by [Date.now()] and the timer
    facility behind [setTimeout] / [clearTimeout].

    Times are integer milliseconds, as [Date.now()] returns them. *)

From Stdlib Require Import ZArith List Bool String Lia.
From Stdlib Require DecimalString.
Import ListNotations.
Local Open Scope Z_scope.

(** ** JavaScript completions

    A call either returns a value or throws; the thrown value is kept as a
    string. *)

Inductive result (A : Type) : Type :=
| Ok (a : A)
| Throw (e : string).

Arguments Ok {A} a.
Arguments Throw {A} e.

Definition is_ok {A : Type} (r : result A) : bool :=
  match r with
  | Ok _ => true
  | Throw _ => false
  end.

(** ** The host timer facility

    [setTimeout] hands out increasing handles and queues the task;
    [clearTimeout] removes the task with the given handle and ignores
    [null], unknown and already fired handles.

    The timeout of [setTimeout] is a 32-bit signed integer for the host
    (a Web IDL [long]): the number passed is reduced modulo 2^32 into
    -2^31 .. 2^31 - 1, and what is negative after that counts as zero. So a
    timeout between 2^31 and 2^32 - 1 fires at once. These are the host's
    rules, not the hooks'. *)

Module Host.

(** The conversion of a number to a Web IDL [long]. *)
Definition to_long (z : Z) : Z := (z + 2 ^ 31) mod 2 ^ 32 - 2 ^ 31.

(** The milliseconds the host waits for a timeout argument. *)
Definition timeout_ms (timeout : Z) : Z := Z.max 0 (to_long timeout).

Section Timers.
Context {A : Type}.

Record timer : Type := { handle : nat; due : Z; task : A }.

Record t : Type := { clock : Z; next_handle : nat; pending : list timer }.

Definition boot (start : Z) : t :=
  {| clock := start; next_handle := 1; pending := [] |}.

Definition setTimeout (h : t) (cb : A) (timeout : Z) : nat * t :=
  (next_handle h,
   {| clock := clock h;
      next_handle := S (next_handle h);
      pending := pending h ++
        [{| handle := next_handle h;
            due := clock h + timeout_ms timeout;
            task := cb |}] |}).

Definition targets (id : option nat) (tm : timer) : bool :=
  match id with
  | Some i => Nat.eqb (handle tm) i
  | None => false
  end.

Definition clearTimeout (h : t) (id : option nat) : t :=
  {| clock := clock h;
     next_handle := next_handle h;
     pending := filter (fun tm => negb (targets id tm)) (pending h) |}.

Definition is_due (at_time : Z) (tm : timer) : bool := due tm <=? at_time.

(** Timers fire in order of their due time, earlier registrations first
    among equal due times. *)
Fixpoint insert_due (tm : timer) (l : list timer) : list timer :=
  match l with
  | [] => [tm]
  | x :: rest =>
      if due x <? due tm then x :: insert_due tm rest else tm :: l
  end.

Definition by_due (l : list timer) : list timer :=
  fold_right insert_due [] l.

Definition expired (h : t) (at_time : Z) : list timer :=
  by_due (filter (is_due at_time) (pending h)).

Definition advance (h : t) (at_time : Z) : t :=
  {| clock := Z.max (clock h) at_time;
     next_handle := next_handle h;
     pending := filter (fun tm => negb (is_due at_time tm)) (pending h) |}.
End Timers.
Arguments timer A : clear implicits.
Arguments t A : clear implicits.
End Host.

(** ** useThrottle

<<
function useThrottle(callback, delay) {
  const lastRun = React.useRef(Date.now());
  return useCallback(() => {
    if (Date.now() - lastRun.current >= delay) {
      callback();
      lastRun.current = Date.now();
    }
  }, [callback, delay]);
}
>>

    The wrapped action is seen from the invoker: [callback now] is what
    [callback()] does when it is entered at clock reading [now]. It either
    returns, and then [Ok fired] gives the reading of the [Date.now()] that
    follows it, or it throws. *)

Module Throttle.

Record state : Type := { lastRun : Z }.

Inductive event : Type :=
| Dropped (at_time : Z)
| Executed (at_time fired : Z)
| Raised (at_time : Z) (e : string).

Definition invoked (ev : event) : bool :=
  match ev with
  | Dropped _ => false
  | Executed _ _ | Raised _ _ => true
  end.

Definition entered (ev : event) : Z :=
  match ev with
  | Dropped t | Executed t _ | Raised t _ => t
  end.

Definition executions (evs : list event) : list event := filter invoked evs.

(** The recorded time of the last execution that returned, if any. *)
Fixpoint last_fired (evs : list event) : option Z :=
  match evs with
  | [] => None
  | ev :: rest =>
      match last_fired rest with
      | Some r => Some r
      | None =>
          match ev with
          | Executed _ fired => Some fired
          | _ => None
          end
      end
  end.

(** The last request of a run that entered the action, if any. *)
Fixpoint last_invoked (evs : list event) : option event :=
  match evs with
  | [] => None
  | ev :: rest =>
      match last_invoked rest with
      | Some later => Some later
      | None => if invoked ev then Some ev else None
      end
  end.

(** The moment an execution is over: the time recorded when it returned,
    the time it was entered when it threw. *)
Definition finished (ev : event) : Z :=
  match ev with
  | Executed _ fired => fired
  | Raised t _ | Dropped t => t
  end.

(** First render: the ref is initialised with the current time. Nothing
    in the body looks at [delay], and nothing throws. *)
Definition initial (now : Z) : state := {| lastRun := now |}.

Definition useThrottle (callback : Z -> result Z) (delay : Z) (now : Z)
    : result state :=
  Ok (initial now).

Section Hook.
Variable callback : Z -> result Z.
Variable delay : Z.

(** The memoised function returned by the hook, called at clock reading
    [now]. The ref is written after [callback()] returned, so a throwing
    callback leaves it as it was. *)
Definition throttled (s : state) (now : Z) : state * event :=
  if delay <=? now - lastRun s then
    match callback now with
    | Ok fired => ({| lastRun := fired |}, Executed now fired)
    | Throw e => (s, Raised now e)
    end
  else (s, Dropped now).


Fixpoint requests (s : state) (times : list Z) : state * list event :=
  match times with
  | [] => (s, [])
  | now :: rest =>
      let (s1, ev) := throttled s now in
      let (s2, evs) := requests s1 rest in
      (s2, ev :: evs)
  end.
End Hook.

(** An action that returns within the same millisecond. *)
Definition instant (now : Z) : result Z := Ok now.

(** An action that always throws. *)
Definition failing (now : Z) : result Z := Throw "boom".

End Throttle.

(** ** useDebounce

<<
function useDebounce(value, delay) {
  const [debouncedValue, setDebouncedValue] = useState(value);
  useEffect(() => {
    const handler = setTimeout(() => {
      setDebouncedValue(value);
    }, delay);
    return () => {
      clearTimeout(handler);
    };
  }, [value, delay]);
  return debouncedValue;
}
>>

    The hook is called on every render of its component. The state cell
    keeps [debouncedValue]; the effect runs after the first render and after
    each render in which [value] or [delay] differs from the previous
    render, its cleanup running first; the cleanup also runs on unmount. *)

Module Debounce.
Section Hook.
Variable T : Type.
Variable T_eq_dec : forall a b : T, {a = b} + {a <> b}.

Record hook : Type := {
  debouncedValue : T;
  value : T;
  delay : Z;
  handler : nat;
  mounted : bool
}.

Record world : Type := { host : Host.t T; inst : hook }.

(** One run of a timer callback: the time, the value passed to the setter
    and the value the state cell held before. *)
Inductive event : Type :=
| Fired (at_time : Z) (v : T) (previous : T).

Definition same (a b : T) : bool := if T_eq_dec a b then true else false.

Definition changed (ev : event) : bool :=
  match ev with
  | Fired _ v previous => negb (same v previous)
  end.

Definition stamp (ev : event) : Z * T :=
  match ev with
  | Fired t v _ => (t, v)
  end.

Definition output_changes (evs : list event) : list (Z * T) :=
  map stamp (filter changed evs).

Definition currentOutput (w : world) : T := debouncedValue (inst w).

(** The state setter: a state update on an unmounted component is
    ignored. *)
Definition setDebouncedValue (v : T) (hk : hook) : result hook :=
  Ok (if mounted hk
      then {| debouncedValue := v; value := value hk; delay := delay hk;
              handler := handler hk; mounted := true |}
      else hk).

(** The arrow function handed to [setTimeout]: it calls the setter with
    the captured [value] and has no handler of its own. *)
Definition timer_callback {S : Type} (setter : T -> S -> result S)
    (captured : T) (st : S) : result S :=
  setter captured st.

(** First render and first effect. *)
Definition mount (now : Z) (v : T) (d : Z) : world :=
  let (h, host1) := Host.setTimeout (Host.boot now) v d in
  {| host := host1;
     inst := {| debouncedValue := v; value := v; delay := d;
                handler := h; mounted := true |} |}.

Definition useDebounce (now : Z) (v : T) (d : Z) : result world :=
  Ok (mount now v d).

Definition same_deps (v : T) (d : Z) (hk : hook) : bool :=
  same v (value hk) && (d =? delay hk).

(** A later render with the props [v] and [d]. *)
Definition render (v : T) (d : Z) (w : world) : world :=
  if negb (mounted (inst w)) then w
  else if same_deps v d (inst w) then w
  else
    let cleaned := Host.clearTimeout (host w) (Some (handler (inst w))) in
    let (h, host1) := Host.setTimeout cleaned v d in
    {| host := host1;
       inst := {| debouncedValue := debouncedValue (inst w);
                  value := v; delay := d; handler := h;
                  mounted := true |} |}.

(** Unmount: the cleanup of the last effect. *)
Definition unmount (w : world) : world :=
  {| host := Host.clearTimeout (host w) (Some (handler (inst w)));
     inst := {| debouncedValue := debouncedValue (inst w);
                value := value (inst w); delay := delay (inst w);
                handler := handler (inst w); mounted := false |} |}.

Definition fire (tm : Host.timer T) (acc : hook * list event)
    : hook * list event :=
  let (hk, log) := acc in
  match timer_callback setDebouncedValue (Host.task tm) hk with
  | Ok hk1 =>
      (hk1, log ++ [Fired (Host.due tm) (Host.task tm) (debouncedValue hk)])
  | Throw _ => (hk, log)
  end.

(** The clock reaches [now]: every timer due by then has fired, at its
    due time. *)
Definition tick (now : Z) (w : world) : world * list event :=
  let (hk, log) :=
    fold_left (fun acc tm => fire tm acc) (Host.expired (host w) now)
              (inst w, []) in
  ({| host := Host.advance (host w) now; inst := hk |}, log).

Inductive op : Type :=
| Render (v : T) (d : Z)
| Tick (now : Z)
| Unmount.

Definition step (o : op) (w : world) : world * list event :=
  match o with
  | Render v d => (render v d w, [])
  | Tick now => tick now w
  | Unmount => (unmount w, [])
  end.

Fixpoint exec (ops : list op) (w : world) : world * list event :=
  match ops with
  | [] => (w, [])
  | o :: rest =>
      let (w1, e1) := step o w in
      let (w2, e2) := exec rest w1 in
      (w2, e1 ++ e2)
  end.

(** Inputs [(t, v)]: at time [t] the component renders with value [v],
    after the timers due by [t] have fired. *)
Definition script (d : Z) (inputs : list (Z * T)) : list op :=
  flat_map (fun i => [Tick (fst i); Render (snd i) d]) inputs.

(** Everything the timers did up to [horizon]. *)
Definition timeline (t0 : Z) (v0 : T) (d : Z) (inputs : list (Z * T))
    (horizon : Z) : list event :=
  snd (exec (script d inputs ++ [Tick horizon]) (mount t0 v0 d)).

(** The debounce contract in the spec's words: the input [(t, v)] is
    emitted at [t + d] when no newer input came before that, and it is
    dropped otherwise; [out] is the output at that point. *)
Fixpoint spec_timeline (d : Z) (out : T) (t : Z) (v : T)
    (inputs : list (Z * T)) : list event :=
  match inputs with
  | [] => [Fired (t + d) v out]
  | (t1, v1) :: rest =>
      if t + d <=? t1
      then Fired (t + d) v out :: spec_timeline d v t1 v1 rest
      else spec_timeline d out t1 v1 rest
  end.

(** The quiet periods that follow the observed inputs, each with the
    time it ends and the input it settles on. *)
Fixpoint quiet_periods (d : Z) (inputs : list (Z * T)) : list (Z * T) :=
  match inputs with
  | [] => []
  | (t, v) :: rest =>
      match rest with
      | [] => [(t + d, v)]
      | (t1, _) :: _ =>
          if t + d <=? t1 then (t + d, v) :: quiet_periods d rest
          else quiet_periods d rest
      end
  end.

Fixpoint increasing (t : Z) (inputs : list (Z * T)) : Prop :=
  match inputs with
  | [] => True
  | (t1, _) :: rest => t < t1 /\ increasing t1 rest
  end.

Fixpoint fresh (v : T) (inputs : list (Z * T)) : Prop :=
  match inputs with
  | [] => True
  | (_, v1) :: rest => v1 <> v /\ fresh v1 rest
  end.

Fixpoint last_time (t : Z) (inputs : list (Z * T)) : Z :=
  match inputs with
  | [] => t
  | (t1, _) :: rest => last_time t1 rest
  end.

Definition outstanding (w : world) : nat :=
  List.length (Host.pending (host w)).

(** The values the component rendered with. *)
Fixpoint rendered (ops : list op) : list T :=
  match ops with
  | [] => []
  | Render v _ :: rest => v :: rendered rest
  | _ :: rest => rendered rest
  end.

(** The world right after an effect ran at time [t] for the value [v]:
    one timer, due when the host has waited for the timeout [d], owned by
    the hook. *)
Definition armed (n h : nat) (t : Z) (v out : T) (d : Z) : world :=
  {| host := {| Host.clock := t; Host.next_handle := n;
                Host.pending :=
                  [{| Host.handle := h; Host.due := t + Host.timeout_ms d;
                      Host.task := v |}] |};
     inst := {| debouncedValue := out; value := v; delay := d;
                handler := h; mounted := true |} |}.

(** The invariant behind the single timer slot: whatever is pending is the
    timer whose handle the cleanup of the last effect holds. *)
Definition owns_pending (w : world) : Prop :=
  Host.pending (host w) = [] \/
  exists tm, Host.pending (host w) = [tm] /\
             Host.handle tm = handler (inst w).
End Hook.

Arguments debouncedValue {T} h.
Arguments value {T} h.
Arguments delay {T} h.
Arguments handler {T} h.
Arguments mounted {T} h.
Arguments host {T} w.
Arguments inst {T} w.
Arguments Fired {T} at_time v previous.
Arguments Render {T} v d.
Arguments Tick {T} now.
Arguments Unmount {T}.
End Debounce.

(** ** useWindowSize

<<
function useWindowSize() {
  const [windowSize, setWindowSize] = useState({
    width: window.innerWidth, height: window.innerHeight });
  useEffect(() => {
    let timeoutId = null;
    const handleResize = () => {
      clearTimeout(timeoutId);
      timeoutId = setTimeout(() => {
        setWindowSize({ width: window.innerWidth,
                        height: window.innerHeight });
      }, 100);
    };
    window.addEventListener("resize", handleResize);
    return () => {
      window.removeEventListener("resize", handleResize);
      clearTimeout(timeoutId);
    };
  }, []);
  return windowSize;
}
>>
*)

Module WindowSize.

Record size : Type := { width : Z; height : Z }.

Record hook : Type := {
  windowSize : size;
  timeoutId : option nat;
  listening : bool
}.

(** [window] holds [innerWidth] and [innerHeight]. *)
Record world : Type := { host : Host.t unit; window : size; inst : hook }.

Inductive event : Type :=
| Resized (at_time : Z) (s : size).

Definition mount (now : Z) (win : size) : world :=
  {| host := Host.boot now;
     window := win;
     inst := {| windowSize := win; timeoutId := None;
                listening := true |} |}.

Definition handleResize (w : world) : world :=
  let cleaned := Host.clearTimeout (host w) (timeoutId (inst w)) in
  let (h, host1) := Host.setTimeout cleaned tt 100 in
  {| host := host1;
     window := window w;
     inst := {| windowSize := windowSize (inst w); timeoutId := Some h;
                listening := listening (inst w) |} |}.

(** The browser window takes the size [win] and dispatches [resize]. *)
Definition resize (win : size) (w : world) : world :=
  let w1 := {| host := host w; window := win; inst := inst w |} in
  if listening (inst w) then handleResize w1 else w1.

Definition unmount (w : world) : world :=
  {| host := Host.clearTimeout (host w) (timeoutId (inst w));
     window := window w;
     inst := {| windowSize := windowSize (inst w);
                timeoutId := timeoutId (inst w);
                listening := false |} |}.

Definition setWindowSize (s : size) (hk : hook) : hook :=
  if listening hk
  then {| windowSize := s; timeoutId := timeoutId hk; listening := true |}
  else hk.

Definition fire (win : size) (tm : Host.timer unit)
    (acc : hook * list event) : hook * list event :=
  let (hk, log) := acc in
  (setWindowSize win hk, log ++ [Resized (Host.due tm) win]).

Definition tick (now : Z) (w : world) : world * list event :=
  let (hk, log) :=
    fold_left (fun acc tm => fire (window w) tm acc)
              (Host.expired (host w) now) (inst w, []) in
  ({| host := Host.advance (host w) now; window := window w; inst := hk |},
   log).

Inductive op : Type :=
| Resize (win : size)
| Tick (now : Z)
| Unmount.

Definition step (o : op) (w : world) : world * list event :=
  match o with
  | Resize win => (resize win w, [])
  | Tick now => tick now w
  | Unmount => (unmount w, [])
  end.

Fixpoint exec (ops : list op) (w : world) : world * list event :=
  match ops with
  | [] => (w, [])
  | o :: rest =>
      let (w1, e1) := step o w in
      let (w2, e2) := exec rest w1 in
      (w2, e1 ++ e2)
  end.

Definition outstanding (w : world) : nat :=
  List.length (Host.pending (host w)).

Definition owns_pending (w : world) : Prop :=
  Host.pending (host w) = [] \/
  exists tm, Host.pending (host w) = [tm] /\
             timeoutId (inst w) = Some (Host.handle tm).

End WindowSize.


(** ** ThrottledScroll

<<
function ThrottledScroll() {
  const [scrollCount, setScrollCount] = useState(0);
  const [throttledCount, setThrottledCount] = useState(0);
  const throttledScrollHandler = useThrottle(() => {
    setThrottledCount(prev => prev + 1);
  }, 1000);
  useEffect(() => {
    const handleScroll = () => {
      setScrollCount(prev => prev + 1);
      throttledScrollHandler();
    };
    ...
>>

    The action only queues a state update, so it returns; [clock_after t]
    is the reading of the [Date.now()] that follows an action entered at
    [t]. *)

Module ThrottledScroll.

Record component : Type := {
  scrollCount : nat;
  throttledCount : nat;
  throttle : Throttle.state
}.

Section Component.
Variable clock_after : Z -> Z.

Definition callback (now : Z) : result Z := Ok (clock_after now).

Definition mount (now : Z) : component :=
  {| scrollCount := 0; throttledCount := 0;
     throttle := Throttle.initial now |}.

Definition handleScroll (c : component) (now : Z) : component :=
  let (s1, ev) := Throttle.throttled callback 1000 (throttle c) now in
  {| scrollCount := S (scrollCount c);
     throttledCount :=
       match ev with
       | Throttle.Executed _ _ => S (throttledCount c)
       | _ => throttledCount c
       end;
     throttle := s1 |}.

Definition scrolls (c : component) (times : list Z) : component :=
  fold_left handleScroll times c.
End Component.

End ThrottledScroll.

(** Requests that leave the window time to close: each comes [gap] ms or
    more after the one before, the first after [from]. *)
Fixpoint apart (gap : Z) (from : Z) (times : list Z) : Prop :=
  match times with
  | [] => True
  | t :: rest => from + gap <= t /\ apart gap t rest
  end.

(** ** DebouncedButton

<<
function DebouncedButton() {
  const [clickCount, setClickCount] = useState(0);
  const [debouncedCount, setDebouncedCount] = useState(0);
  const debouncedClick = useCallback(() => {
    const timeoutId = setTimeout(() => {
      setDebouncedCount(prev => prev + 1);
    }, 2000);
    return () => clearTimeout(timeoutId);
  }, []);
  const handleClick = () => {
    setClickCount(prev => prev + 1);
    debouncedClick();
  };
  ...
>>

    [handleClick] drops the function that [debouncedClick] returns, so
    [clearTimeout] is never called. *)

Module DebouncedButton.

Record component : Type := { clickCount : nat; debouncedCount : nat }.

Record world : Type := { host : Host.t unit; inst : component }.

Definition mount (now : Z) : world :=
  {| host := Host.boot now;
     inst := {| clickCount := 0; debouncedCount := 0 |} |}.

Definition debouncedClick (h : Host.t unit) : Host.t unit :=
  snd (Host.setTimeout h tt 2000).

Definition handleClick (w : world) : world :=
  {| host := debouncedClick (host w);
     inst := {| clickCount := S (clickCount (inst w));
                debouncedCount := debouncedCount (inst w) |} |}.

(** The timer callback: [setDebouncedCount(prev => prev + 1)]. *)
Definition fire (c : component) (tm : Host.timer unit) : component :=
  {| clickCount := clickCount c; debouncedCount := S (debouncedCount c) |}.

Definition tick (now : Z) (w : world) : world :=
  {| host := Host.advance (host w) now;
     inst := fold_left fire (Host.expired (host w) now) (inst w) |}.

Inductive op : Type :=
| Click
| Tick (now : Z).

Definition step (w : world) (o : op) : world :=
  match o with
  | Click => handleClick w
  | Tick now => tick now w
  end.

Definition exec (ops : list op) (w : world) : world := fold_left step ops w.

Definition outstanding (w : world) : nat :=
  List.length (Host.pending (host w)).

End DebouncedButton.

(** ** JavaScript strings

    A string is its sequence of UTF-16 code units. [trim] removes white
    space and line terminators from both ends; all of them are single code
    units. A string is falsy exactly when it is empty. *)

Module JS.

Definition jsstring : Type := list N.

Definition is_space (c : N) : bool :=
  existsb (N.eqb c)
    [9; 10; 11; 12; 13; 32; 160; 5760; 8232; 8233; 8239; 8287; 12288;
     65279]%N
  || ((8192 <=? c) && (c <=? 8202))%N.

Fixpoint trimStart (s : jsstring) : jsstring :=
  match s with
  | [] => []
  | c :: rest => if is_space c then trimStart rest else s
  end.

Definition trimEnd (s : jsstring) : jsstring := rev (trimStart (rev s)).

Definition trim (s : jsstring) : jsstring := trimEnd (trimStart s).

Definition truthy (s : jsstring) : bool :=
  match s with
  | [] => false
  | _ :: _ => true
  end.

(** [s.includes(c)] for a one-unit search string. *)
Definition includes (c : N) (s : jsstring) : bool := existsb (N.eqb c) s.

End JS.

(** ** ArrayState

<<
function ArrayState() {
  const [todos, setTodos] = useState([]);
  const [newTodo, setNewTodo] = useState('');
  const addTodo = () => {
    if (newTodo.trim()) {
      setTodos(prevTodos => [
        ...prevTodos,
        { id: Date.now(), text: newTodo, completed: false }
      ]);
      setNewTodo('');
    }
  };
  const toggleTodo = (id) => {
    setTodos(prevTodos =>
      prevTodos.map(todo =>
        todo.id === id ? { ...todo, completed: !todo.completed } : todo));
  };
  const removeTodo = (id) => {
    setTodos(prevTodos => prevTodos.filter(todo => todo.id !== id));
  };
  ...
>>
*)

Module ArrayState.

Record todo : Type := { id : Z; text : JS.jsstring; completed : bool }.

Record component : Type := { todos : list todo; newTodo : JS.jsstring }.

Definition mount : component := {| todos := []; newTodo := [] |}.

Definition setNewTodo (s : JS.jsstring) (c : component) : component :=
  {| todos := todos c; newTodo := s |}.

Definition addTodo (now : Z) (c : component) : component :=
  if JS.truthy (JS.trim (newTodo c))
  then {| todos := todos c ++
                   [{| id := now; text := newTodo c; completed := false |}];
          newTodo := [] |}
  else c.

Definition toggle (i : Z) (t : todo) : todo :=
  if id t =? i
  then {| id := id t; text := text t; completed := negb (completed t) |}
  else t.

Definition toggleTodo (i : Z) (c : component) : component :=
  {| todos := map (toggle i) (todos c); newTodo := newTodo c |}.

Definition removeTodo (i : Z) (c : component) : component :=
  {| todos := filter (fun t => negb (id t =? i)) (todos c);
     newTodo := newTodo c |}.

Inductive op : Type :=
| Type_ (s : JS.jsstring)
| Add (now : Z)
| Toggle (i : Z)
| Remove (i : Z).

Definition step (c : component) (o : op) : component :=
  match o with
  | Type_ s => setNewTodo s c
  | Add now => addTodo now c
  | Toggle i => toggleTodo i c
  | Remove i => removeTodo i c
  end.

Definition exec (ops : list op) (c : component) : component :=
  fold_left step ops c.

(** The clock readings of the [Add] events, in order. *)
Fixpoint add_times (ops : list op) : list Z :=
  match ops with
  | [] => []
  | Add now :: rest => now :: add_times rest
  | _ :: rest => add_times rest
  end.

(** Readings that grow strictly, all above [low]. *)
Fixpoint ascending (low : Z) (times : list Z) : Prop :=
  match times with
  | [] => True
  | t :: rest => low < t /\ ascending t rest
  end.

End ArrayState.

(** ** useLocalStorage

<<
function useLocalStorage(key, initialValue) {
  const [storedValue, setStoredValue] = useState(() => {
    try {
      const item = window.localStorage.getItem(key);
      return item ? JSON.parse(item) : initialValue;
    } catch (error) {
      console.error("Error reading from localStorage:", error);
      return initialValue;
    }
  });
  const setValue = useCallback((value) => {
    try {
      const valueToStore =
        value instanceof Function ? value(storedValue) : value;
      setStoredValue(valueToStore);
      window.localStorage.setItem(key, JSON.stringify(valueToStore));
    } catch (error) {
      console.error("Error setting localStorage:", error);
    }
  }, [key, storedValue]);
  return [storedValue, setValue];
}
>>

    [JSON.parse], [JSON.stringify] and the quota of the storage belong to
    the host and are parameters: [fits st key item] tells whether [setItem]
    accepts the item. *)

Module LocalStorage.

Definition storage : Type := string -> option string.

Definition getItem (st : storage) (key : string) : option string := st key.

Definition put (st : storage) (key item : string) : storage :=
  fun k => if String.eqb k key then Some item else st k.

Section Hook.
Variable V : Type.
Variable parse : string -> result V.
Variable stringify : V -> result string.
Variable fits : storage -> string -> string -> bool.

Definition setItem (st : storage) (key item : string) : result storage :=
  if fits st key item then Ok (put st key item)
  else Throw "QuotaExceededError".

Record world : Type := { storedValue : V; store : storage }.

(** The lazy initial state: an item that is missing or empty gives the
    initial value, and so does one that does not parse. *)
Definition initialState (key : string) (initialValue : V) (st : storage)
    : V :=
  match getItem st key with
  | None => initialValue
  | Some item =>
      if String.eqb item "" then initialValue
      else match parse item with
           | Ok v => v
           | Throw _ => initialValue
           end
  end.

Definition useLocalStorage (key : string) (initialValue : V) (st : storage)
    : world :=
  {| storedValue := initialState key initialValue st; store := st |}.

(** The argument of [setValue]: a value, or a function of the stored
    value. *)
Inductive update : Type :=
| Value (v : V)
| Updater (f : V -> result V).

Definition resolve (captured : V) (u : update) : result V :=
  match u with
  | Value v => Ok v
  | Updater f => f captured
  end.

(** [setValue] as created by the render that saw [captured] as the stored
    value. Whatever is thrown inside is caught. *)
Definition setValue (key : string) (captured : V) (u : update) (w : world)
    : world :=
  match resolve captured u with
  | Throw _ => w
  | Ok valueToStore =>
      match stringify valueToStore with
      | Throw _ => {| storedValue := valueToStore; store := store w |}
      | Ok item =>
          match setItem (store w) key item with
          | Ok st1 => {| storedValue := valueToStore; store := st1 |}
          | Throw _ => {| storedValue := valueToStore; store := store w |}
          end
      end
  end.

(** Calls of [setValue], each from the render that follows the one
    before. *)
Definition setValues (key : string) (us : list update) (w : world) : world :=
  fold_left (fun w1 u => setValue key (storedValue w1) u w1) us w.
End Hook.

End LocalStorage.

(** ** JavaScript objects with string keys

    A plain object, as an object literal and the spread
    [{ ...prev, [name]: value }] build it: its own properties in creation
    order. [get] reads an own property, and [set] replaces the value of an
    existing key in place and puts a new key at the end.

    JavaScript departs from this for two kinds of keys, and [plain] tells
    the others. It lists the keys that are array indices first, in
    ascending order: those are written with digits only ([index_like]).
    And [o[k]] also finds what every object inherits from
    [Object.prototype] ([inherited]), where an assignment to [__proto__]
    creates no property. For a key that is not inherited, [get o k] is
    [o[k]], [None] standing for [undefined]; for keys that are not
    [index_like], [keys] is [Object.keys]. *)

Module Obj.

Definition is_digit (c : Ascii.ascii) : bool :=
  ((48 <=? Ascii.nat_of_ascii c)%nat && (Ascii.nat_of_ascii c <=? 57)%nat)%bool.

Fixpoint all_digits (k : string) : bool :=
  match k with
  | EmptyString => true
  | String c rest => is_digit c && all_digits rest
  end.

Definition index_like (k : string) : bool :=
  match k with
  | EmptyString => false
  | String _ _ => all_digits k
  end.

(** The properties of [Object.prototype]. *)
Definition inherited : list string :=
  ["constructor"; "__proto__"; "toString"; "toLocaleString"; "valueOf";
   "hasOwnProperty"; "isPrototypeOf"; "propertyIsEnumerable";
   "__defineGetter__"; "__defineSetter__"; "__lookupGetter__";
   "__lookupSetter__"]%string.

Definition plain (k : string) : bool :=
  negb (index_like k) && negb (existsb (String.eqb k) inherited).

Section Obj.
Context {V : Type}.

Definition t : Type := list (string * V).

Fixpoint get (o : t) (k : string) : option V :=
  match o with
  | [] => None
  | (k1, v) :: rest => if String.eqb k1 k then Some v else get rest k
  end.

Fixpoint set (o : t) (k : string) (v : V) : t :=
  match o with
  | [] => [(k, v)]
  | (k1, v1) :: rest =>
      if String.eqb k1 k then (k, v) :: rest else (k1, v1) :: set rest k v
  end.

Definition keys (o : t) : list string := map fst o.
End Obj.
Arguments t V : clear implicits.
End Obj.

(** ** ObjectState

<<
const updateField = (field, value) => {
  setUser(prevUser => ({ ...prevUser, [field]: value }));
};
>>
*)

Module ObjectState.

Definition updateField {V : Type} (field : string) (value : V)
    (user : Obj.t V) : Obj.t V :=
  Obj.set user field value.

End ObjectState.

(** ** useForm

<<
function useForm(initialValues = {}, validationRules = {}) {
  const [values, setValues] = useState(initialValues);
  const [errors, setErrors] = useState({});
  const [touched, setTouched] = useState({});
  const [isSubmitting, setIsSubmitting] = useState(false);
  const handleChange = useCallback((name, value) => {
    setValues((prev) => ({ ...prev, [name]: value }));
    if (errors[name]) {
      setErrors((prev) => ({ ...prev, [name]: "" }));
    }
  }, [errors]);
  const handleBlur = useCallback((name) => {
    setTouched((prev) => ({ ...prev, [name]: true }));
    if (validationRules[name]) {
      const error = validationRules[name](values[name]);
      setErrors((prev) => ({ ...prev, [name]: error }));
    }
  }, [validationRules, values]);
  const validateForm = useCallback(() => {
    const newErrors = {};
    Object.keys(validationRules).forEach((field) => {
      const error = validationRules[field](values[field]);
      if (error) newErrors[field] = error;
    });
    setErrors(newErrors);
    return Object.keys(newErrors).length === 0;
  }, [validationRules, values]);
  const handleSubmit = useCallback(async (onSubmit) => {
    setIsSubmitting(true);
    if (validateForm()) {
      try {
        await onSubmit(values);
      } catch (error) {
        console.error("Form submission error:", error);
      }
    }
    setIsSubmitting(false);
  }, [validateForm, values]);
  ...
>>

    A rule gets the value of its field, [None] standing for [undefined],
    and returns a message, the empty one meaning no error; it may throw.
    Each handler is the one created by the latest render. *)

Module UseForm.
Section Hook.
Variable V : Type.

Definition rule : Type := option V -> result string.

Record form : Type := {
  values : Obj.t V;
  errors : Obj.t string;
  touched : Obj.t bool;
  isSubmitting : bool
}.

Definition message_truthy (e : string) : bool := negb (String.eqb e "").

Definition useForm (initialValues : Obj.t V) : form :=
  {| values := initialValues; errors := []; touched := [];
     isSubmitting := false |}.

Definition handleChange (name : string) (value : V) (st : form) : form :=
  {| values := Obj.set (values st) name value;
     errors :=
       match Obj.get (errors st) name with
       | Some e =>
           if message_truthy e then Obj.set (errors st) name ""%string
           else errors st
       | None => errors st
       end;
     touched := touched st;
     isSubmitting := isSubmitting st |}.

Variable validationRules : Obj.t rule.

(** The handler returns the form and how it ended: a rule that throws
    leaves the errors as they were. *)
Definition handleBlur (name : string) (st : form) : form * result unit :=
  let st1 := {| values := values st; errors := errors st;
                touched := Obj.set (touched st) name true;
                isSubmitting := isSubmitting st |} in
  match Obj.get validationRules name with
  | None => (st1, Ok tt)
  | Some r =>
      match r (Obj.get (values st) name) with
      | Ok error =>
          ({| values := values st;
              errors := Obj.set (errors st) name error;
              touched := Obj.set (touched st) name true;
              isSubmitting := isSubmitting st |}, Ok tt)
      | Throw e => (st1, Throw e)
      end
  end.

(** The loop of [validateForm] over the rules that are left. *)
Fixpoint collect (rules : Obj.t rule) (vals : Obj.t V)
    (newErrors : Obj.t string) : result (Obj.t string) :=
  match rules with
  | [] => Ok newErrors
  | (field, r) :: rest =>
      match r (Obj.get vals field) with
      | Throw e => Throw e
      | Ok error =>
          collect rest vals
            (if message_truthy error then Obj.set newErrors field error
             else newErrors)
      end
  end.

Definition is_empty {A : Type} (l : list A) : bool :=
  match l with
  | [] => true
  | _ :: _ => false
  end.

Definition validateForm (st : form) : result (form * bool) :=
  match collect validationRules (values st) [] with
  | Throw e => Throw e
  | Ok newErrors =>
      Ok ({| values := values st; errors := newErrors;
             touched := touched st; isSubmitting := isSubmitting st |},
          is_empty (Obj.keys newErrors))
  end.

(** What a call of [handleSubmit] leaves: the form, the values handed to
    [onSubmit] if it was called, and how the call ended. A failure of
    [onSubmit] is caught and logged. *)
Record submission : Type := {
  after : form;
  submitted : option (Obj.t V);
  ended : result unit
}.

Definition submitting (flag : bool) (st : form) : form :=
  {| values := values st; errors := errors st; touched := touched st;
     isSubmitting := flag |}.

Definition handleSubmit (onSubmit : Obj.t V -> result unit) (st : form)
    : submission :=
  match validateForm (submitting true st) with
  | Throw e =>
      {| after := submitting true st; submitted := None; ended := Throw e |}
  | Ok (st1, true) =>
      match onSubmit (values st) with
      | Ok _ | Throw _ =>
          {| after := submitting false st1; submitted := Some (values st);
             ended := Ok tt |}
      end
  | Ok (st1, false) =>
      {| after := submitting false st1; submitted := None; ended := Ok tt |}
  end.
End Hook.

Arguments values {V} f.
Arguments errors {V} f.
Arguments touched {V} f.
Arguments isSubmitting {V} f.
Arguments after {V} s.
Arguments submitted {V} s.
Arguments ended {V} s.
End UseForm.

(** ** FormExample

<<
const validationRules = {
  name: (value) => (!value.trim() ? "Name is required" : ""),
  email: (value) => (!value.includes("@") ? "Valid email is required" : ""),
  password: (value) =>
    value.length < 6 ? "Password must be at least 6 characters" : "",
};
... = useForm({ name: "", email: "", password: "" }, validationRules);
>>

    Calling a method of [undefined] throws a [TypeError]. *)

Module FormExample.

Definition on_string (f : JS.jsstring -> string) : UseForm.rule JS.jsstring :=
  fun value =>
    match value with
    | Some s => Ok (f s)
    | None => Throw "TypeError"
    end.

Definition name_rule : UseForm.rule JS.jsstring :=
  on_string (fun s =>
    if negb (JS.truthy (JS.trim s)) then "Name is required"%string
    else ""%string).

Definition email_rule : UseForm.rule JS.jsstring :=
  on_string (fun s =>
    if negb (JS.includes 64 s) then "Valid email is required"%string
    else ""%string).

Definition password_rule : UseForm.rule JS.jsstring :=
  on_string (fun s =>
    if (Z.of_nat (List.length s) <? 6)%Z
    then "Password must be at least 6 characters"%string else ""%string).

Definition validationRules : Obj.t (UseForm.rule JS.jsstring) :=
  [("name", name_rule); ("email", email_rule);
   ("password", password_rule)]%string.

Definition initialValues : Obj.t JS.jsstring :=
  [("name", []); ("email", []); ("password", [])]%string.

Definition mount : UseForm.form JS.jsstring :=
  UseForm.useForm JS.jsstring initialValues.

(** The three inputs of the form. *)
Inductive field : Type := Name | Email | Password.

Definition field_name (f : field) : string :=
  match f with
  | Name => "name"
  | Email => "email"
  | Password => "password"
  end.

Inductive op : Type :=
| Change (f : field) (s : JS.jsstring)
| Blur (f : field)
| Submit (onSubmit : Obj.t JS.jsstring -> result unit).

Definition step (st : UseForm.form JS.jsstring) (o : op)
    : UseForm.form JS.jsstring :=
  match o with
  | Change f s => UseForm.handleChange JS.jsstring (field_name f) s st
  | Blur f =>
      fst (UseForm.handleBlur JS.jsstring validationRules (field_name f) st)
  | Submit onSubmit =>
      UseForm.after
        (UseForm.handleSubmit JS.jsstring validationRules onSubmit st)
  end.

Definition exec (ops : list op) (st : UseForm.form JS.jsstring)
    : UseForm.form JS.jsstring :=
  fold_left step ops st.

(** The values of the three inputs. *)
Definition input (f : field) (st : UseForm.form JS.jsstring) : JS.jsstring :=
  match Obj.get (UseForm.values st) (field_name f) with
  | Some s => s
  | None => []
  end.

(** What the rule of each input asks for. *)
Definition field_ok (f : field) (st : UseForm.form JS.jsstring) : bool :=
  match f with
  | Name => JS.truthy (JS.trim (input Name st))
  | Email => JS.includes 64 (input Email st)
  | Password => (6 <=? Z.of_nat (List.length (input Password st)))%Z
  end.

(** What the three rules ask for. *)
Definition acceptable (st : UseForm.form JS.jsstring) : bool :=
  JS.truthy (JS.trim (input Name st))
  && JS.includes 64 (input Email st)
  && (6 <=? Z.of_nat (List.length (input Password st)))%Z.

End FormExample.

(** ** useFetch

<<
const fetchData = useCallback(async () => {
  try {
    setLoading(true);
    setError(null);
    const response = await fetch(url, options);
    if (!response.ok) {
      throw new Error(`HTTP error! status: ${response.status}`);
    }
    const result = await response.json();
    setData(result);
  } catch (err) {
    setError(err.message);
  } finally {
    setLoading(false);
  }
}, [url, JSON.stringify(options)]);
>>

    One call of [fetchData] from its start to its end, each call ending
    before the next one starts. What the network did is the input: the
    request was rejected with an error, or a response came with its status
    and the outcome of [response.json()]. *)

Module UseFetch.
Section Hook.
Variable V : Type.

Record state : Type := {
  data : option V;
  loading : bool;
  error : option string
}.

Inductive outcome : Type :=
| Rejected (message : string)
| Responded (ok : bool) (status : N) (body : result V).

Definition useFetch : state :=
  {| data := None; loading := true; error := None |}.

(** [setLoading(true); setError(null)] *)
Definition start (st : state) : state :=
  {| data := data st; loading := true; error := None |}.

Definition http_error (status : N) : string :=
  String.append "HTTP error! status: "
    (DecimalString.NilZero.string_of_uint (N.to_uint status)).

Definition finish (o : outcome) (st : state) : state :=
  match o with
  | Rejected message =>
      {| data := data st; loading := false; error := Some message |}
  | Responded false status _ =>
      {| data := data st; loading := false;
         error := Some (http_error status) |}
  | Responded true _ (Throw message) =>
      {| data := data st; loading := false; error := Some message |}
  | Responded true _ (Ok result) =>
      {| data := Some result; loading := false; error := error st |}
  end.

Definition fetchData (st : state) (o : outcome) : state :=
  finish o (start st).

Definition fetches (outcomes : list outcome) (st : state) : state :=
  fold_left fetchData outcomes st.

(** The body of a response that was fine and parsed. *)
Definition success (o : outcome) : option V :=
  match o with
  | Responded true _ (Ok result) => Some result
  | _ => None
  end.

(** The message a call that failed leaves. *)
Definition failure (o : outcome) : option string :=
  match o with
  | Rejected message => Some message
  | Responded false status _ => Some (http_error status)
  | Responded true _ (Throw message) => Some message
  | Responded true _ (Ok _) => None
  end.

Definition succeeded (o : outcome) : bool :=
  match success o with
  | Some _ => true
  | None => false
  end.
End Hook.

Arguments data {V} s.
Arguments loading {V} s.
Arguments error {V} s.
End UseFetch.

(** ** A value type for the storage hook: the two booleans with their JSON
    text, and a storage without quota. *)

Module JsonBool.

Definition stringify (b : bool) : result string :=
  Ok (if b then "true" else "false")%string.

Definition parse (s : string) : result bool :=
  if String.eqb s "true" then Ok true
  else if String.eqb s "false" then Ok false
  else Throw "SyntaxError".

Definition unlimited (st : LocalStorage.storage) (key item : string) : bool :=
  true.

Definition empty : LocalStorage.storage := fun _ => None.

End JsonBool.

(** * Properties of useThrottle *)

Section ThrottleFacts.
Import Throttle.
Variable callback : Z -> result Z.
Variable delay : Z.

Local Abbreviation throttled := (Throttle.throttled callback delay).
Local Abbreviation requests := (Throttle.requests callback delay).

Lemma throttled_closed (s : state) (now : Z) :
  now - lastRun s < delay -> throttled s now = (s, Dropped now).
Proof.
  intros Hlt. unfold Throttle.throttled.
  destruct (Z.leb_spec delay (now - lastRun s)); [lia | reflexivity].
Qed.

Lemma throttled_returns (s : state) (now fired : Z) :
  delay <= now - lastRun s -> callback now = Ok fired ->
  throttled s now = ({| lastRun := fired |}, Executed now fired).
Proof.
  intros Hge Hcb. unfold Throttle.throttled.
  destruct (Z.leb_spec delay (now - lastRun s)); [| lia].
  now rewrite Hcb.
Qed.

Lemma throttled_throws (s : state) (now : Z) (e : string) :
  delay <= now - lastRun s -> callback now = Throw e ->
  throttled s now = (s, Raised now e).
Proof.
  intros Hge Hcb. unfold Throttle.throttled.
  destruct (Z.leb_spec delay (now - lastRun s)); [| lia].
  now rewrite Hcb.
Qed.

(** The three ways a request can end, with what each says about the guard
    and the ref. *)
Lemma throttled_cases (s : state) (now : Z) :
  (now - lastRun s < delay /\ throttled s now = (s, Dropped now)) \/
  (delay <= now - lastRun s /\
   exists fired, callback now = Ok fired /\
     throttled s now = ({| lastRun := fired |}, Executed now fired)) \/
  (delay <= now - lastRun s /\
   exists e, callback now = Throw e /\ throttled s now = (s, Raised now e)).
Proof.
  destruct (Z.lt_ge_cases (now - lastRun s) delay) as [Hlt | Hge].
  - left. split; [assumption | now apply throttled_closed].
  - right. destruct (callback now) as [fired | e] eqn:Hcb.
    + left. split; [assumption |]. exists fired.
      split; [reflexivity | now apply throttled_returns].
    + right. split; [assumption |]. exists e.
      split; [reflexivity | now apply throttled_throws].
Qed.

Lemma invoked_iff_open (s : state) (now : Z) :
  invoked (snd (throttled s now)) = true <-> delay <= now - lastRun s.
Proof.
  destruct (throttled_cases s now)
    as [[Hlt ->] | [[Hge (fired & _ & ->)] | [Hge (e & _ & ->)]]]; simpl;
    split; intros; try reflexivity; try assumption; try discriminate; lia.
Qed.

Lemma requests_cons (s : state) (now : Z) (rest : list Z) :
  requests s (now :: rest) =
  (fst (requests (fst (throttled s now)) rest),
   snd (throttled s now) :: snd (requests (fst (throttled s now)) rest)).
Proof.
  simpl. destruct (throttled s now) as [s1 ev]. simpl.
  destruct (Throttle.requests callback delay s1 rest); reflexivity.
Qed.

(** Requests that all fall inside the window are all dropped, and the ref
    stays as it is. *)
Lemma requests_inside_window (s : state) (times : list Z) :
  Forall (fun t => t - lastRun s < delay) times ->
  requests s times = (s, map Dropped times).
Proof.
  induction 1 as [| t rest Ht _ IH]; [reflexivity |].
  rewrite requests_cons, (throttled_closed s t Ht). simpl.
  now rewrite IH.
Qed.

(** The first execution of a run passed the guard against the ref the run
    started with. *)
Lemma first_execution_open (times : list Z) :
  forall (s : state) (ev : event) (more : list event),
    executions (snd (requests s times)) = ev :: more ->
    delay <= entered ev - lastRun s.
Proof.
  induction times as [| now rest IH]; intros s ev more Hex.
  - discriminate Hex.
  - rewrite requests_cons in Hex. simpl in Hex.
    destruct (throttled_cases s now)
      as [[Hlt Heq] | [[Hge (fired & _ & Heq)] | [Hge (e & _ & Heq)]]];
      rewrite Heq in Hex; simpl in Hex.
    + now apply IH with (more := more).
    + injection Hex as <- _. exact Hge.
    + injection Hex as <- _. exact Hge.
Qed.

Lemma spacing_after_execution (times : list Z) :
  forall (s : state) (before : list event) (e1 e2 : event)
         (after : list event) (t1 r1 : Z),
    executions (snd (requests s times)) = before ++ e1 :: e2 :: after ->
    e1 = Executed t1 r1 ->
    delay <= entered e2 - r1.
Proof.
  induction times as [| now rest IH];
    intros s before e1 e2 after t1 r1 Hex He1.
  - destruct before; discriminate Hex.
  - rewrite requests_cons in Hex. simpl in Hex.
    destruct (throttled_cases s now)
      as [[Hlt Heq] | [[Hge (fired & _ & Heq)] | [Hge (e & _ & Heq)]]];
      rewrite Heq in Hex; simpl in Hex.
    + eapply IH; eassumption.
    + destruct before as [| b before]; simpl in Hex.
      * injection Hex as Hhead Htail. rewrite He1 in Hhead.
        injection Hhead as _ Hr. subst r1.
        apply (first_execution_open rest _ _ _ Htail).
      * injection Hex as _ Htail. eapply IH; eassumption.
    + destruct before as [| b before]; simpl in Hex.
      * injection Hex as Hhead _. rewrite He1 in Hhead.
        discriminate Hhead.
      * injection Hex as _ Htail. eapply IH; eassumption.
Qed.

Lemma executed_in_trace (times : list Z) :
  forall (s : state) (t r : Z),
    In (Executed t r) (snd (requests s times)) -> callback t = Ok r.
Proof.
  induction times as [| now rest IH]; intros s t r Hin.
  - destruct Hin.
  - rewrite requests_cons in Hin. simpl in Hin.
    destruct Hin as [Hhead | Htail]; [| eapply IH; eassumption].
    destruct (throttled_cases s now)
      as [[_ Heq] | [[_ (fired & Hcb & Heq)] | [_ (e & _ & Heq)]]];
      rewrite Heq in Hhead; simpl in Hhead; try discriminate Hhead.
    injection Hhead as <- <-. exact Hcb.
Qed.

(** The ref after a run holds the time recorded by the last execution that
    returned. *)
Lemma lastRun_is_last_fired (times : list Z) :
  forall (s : state),
    lastRun (fst (requests s times)) =
    match last_fired (snd (requests s times)) with
    | Some r => r
    | None => lastRun s
    end.
Proof.
  induction times as [| now rest IH]; intros s; [reflexivity |].
  rewrite requests_cons. simpl. rewrite IH.
  destruct (last_fired (snd (requests (fst (throttled s now)) rest)));
    [reflexivity |].
  destruct (throttled_cases s now)
    as [[_ ->] | [[_ (fired & _ & ->)] | [_ (e & _ & ->)]]]; reflexivity.
Qed.

(** Requests none of which ran the action leave the hook as it was. *)
Lemma dropped_keep_state (times : list Z) :
  forall (s : state),
    Forall (fun ev => invoked ev = false) (snd (requests s times)) ->
    fst (requests s times) = s.
Proof.
  induction times as [| now rest IH]; intros s Hall; [reflexivity |].
  rewrite requests_cons in *. simpl in *.
  inversion Hall as [| ev evs Hev Hrest]; subst.
  destruct (throttled_cases s now)
    as [[_ Heq] | [[_ (fired & _ & Heq)] | [_ (e & _ & Heq)]]];
    rewrite Heq in *; simpl in *; try discriminate Hev.
  now apply IH.
Qed.

Lemma none_invoked (evs : list event) :
  last_invoked evs = None -> Forall (fun ev => invoked ev = false) evs.
Proof.
  induction evs as [| ev evs IH]; intros Hnone; [constructor |].
  simpl in Hnone. destruct (last_invoked evs); [discriminate |].
  destruct (invoked ev) eqn:Hev; [discriminate |].
  constructor; [exact Hev | now apply IH].
Qed.

(** Whether the last execution returned or threw, the ref is not ahead of
    the moment it was over, provided the delay is not negative. *)
Lemma lastRun_before_finish (times : list Z) :
  0 <= delay ->
  forall (s : state) (ev : event),
    last_invoked (snd (requests s times)) = Some ev ->
    lastRun (fst (requests s times)) <= finished ev.
Proof.
  intros Hd. induction times as [| now rest IH]; intros s ev Hlast.
  - discriminate Hlast.
  - rewrite requests_cons in *. cbn [fst snd last_invoked] in *.
    destruct (last_invoked (snd (requests (fst (throttled s now)) rest)))
      as [later |] eqn:Hrest.
    + injection Hlast as <-. now apply IH.
    + rewrite (dropped_keep_state rest _ (none_invoked _ Hrest)).
      destruct (throttled_cases s now)
        as [[_ Heq] | [[_ (fired & _ & Heq)] | [Hge (e & _ & Heq)]]];
        rewrite Heq in *; simpl in *; try discriminate Hlast;
        injection Hlast as <-; simpl; lia.
Qed.

(** C1, as amended: the hook has no trailing edge. A request inside the
    window is dropped and nothing is scheduled for it, so a burst whose
    first request passes the guard and runs the action to its return, and
    whose other requests all come less than [delay] ms after it, runs the
    action exactly once, at the first request; every other request of the
    burst is dropped. *)
Theorem throttle_burst_leading_only
    (s : state) (first fired : Z) (rest : list Z) :
  delay <= first - lastRun s ->
  callback first = Ok fired ->
  first <= fired ->
  Forall (fun t => t < first + delay) rest ->
  requests s (first :: rest) =
  ({| lastRun := fired |}, Executed first fired :: map Dropped rest).
Proof.
  intros Hopen Hcb Hmono Hburst.
  rewrite requests_cons, (throttled_returns s first fired Hopen Hcb). simpl.
  rewrite requests_inside_window; [reflexivity |].
  eapply Forall_impl; [| exact Hburst].
  simpl. intros t Ht. lia.
Qed.

(** C2, as amended: the first request after the first render runs the
    action if and only if at least [delay] ms have passed since that
    render, whose time the ref starts with. When it runs and returns, the
    time read after it is recorded; when it comes sooner it is dropped and
    the ref keeps the render time. *)
Theorem first_request_gate (t0 now : Z) :
  (invoked (snd (throttled (initial t0) now)) = true <-> delay <= now - t0) /\
  (forall fired, delay <= now - t0 -> callback now = Ok fired ->
     throttled (initial t0) now =
     ({| lastRun := fired |}, Executed now fired)) /\
  (now - t0 < delay -> throttled (initial t0) now = (initial t0, Dropped now)).
Proof.
  split; [apply (invoked_iff_open (initial t0) now) |].
  split.
  - intros fired Hopen Hcb. now apply throttled_returns.
  - intros Hclosed. now apply throttled_closed.
Qed.

(** C3, as amended: in every run of requests, an execution that returned,
    entered at [t1] and recorded at [r1], is followed by the next execution
    of the action no sooner than [delay] ms after [r1], hence after [t1];
    so the executions of an action that never throws are at least [delay]
    ms apart. A request made exactly [delay] ms after the last recorded
    execution runs the action. The clock does not go back while the action
    runs. *)
Theorem throttle_window_enforced (s : state) (times : list Z) :
  (forall t fired, callback t = Ok fired -> t <= fired) ->
  (forall before e2 after t1 r1,
     executions (snd (requests s times)) =
       before ++ Executed t1 r1 :: e2 :: after ->
     delay <= entered e2 - r1 /\ delay <= entered e2 - t1) /\
  (forall r, last_fired (snd (requests s times)) = Some r ->
     invoked (snd (throttled (fst (requests s times)) (r + delay))) = true).
Proof.
  intros Hmono. split.
  - intros before e2 after t1 r1 Hex.
    assert (Hgap : delay <= entered e2 - r1)
      by (eapply spacing_after_execution; [exact Hex | reflexivity]).
    assert (Hin : In (Executed t1 r1) (snd (requests s times))).
    { assert (Hin : In (Executed t1 r1) (executions (snd (requests s times))))
        by (rewrite Hex; apply in_or_app; right; left; reflexivity).
      apply filter_In in Hin. exact (proj1 Hin). }
    apply executed_in_trace, Hmono in Hin. lia.
  - intros r Hlast. apply invoked_iff_open.
    rewrite lastRun_is_last_fired, Hlast. lia.
Qed.

(** After any run, a request made [delay] ms or more after the last
    execution was over runs the action, however many requests were dropped
    since; this for a delay that is not negative. *)
Lemma window_after_last_execution (s : state) (times : list Z) (now : Z) :
  0 <= delay ->
  forall ev : event,
    last_invoked (snd (requests s times)) = Some ev ->
    delay <= now - finished ev ->
    invoked (snd (throttled (fst (requests s times)) now)) = true.
Proof.
  intros Hd ev Hlast Hopen. apply invoked_iff_open.
  pose proof (lastRun_before_finish times Hd s ev Hlast). lia.
Qed.



End ThrottleFacts.

(** C1, counterexample: four requests 10 ms apart with a 100 ms window, the
    first one passing the guard. The action runs once, not twice: nothing
    runs at the end of the window. *)
Lemma throttle_burst_counterexample :
  Throttle.executions
    (snd (Throttle.requests Throttle.instant 100 (Throttle.initial 0)
            [1000; 1010; 1020; 1030]))
  = [Throttle.Executed 1000 1000] /\
  List.length
    (Throttle.executions
       (snd (Throttle.requests Throttle.instant 100 (Throttle.initial 0)
               [1000; 1010; 1020; 1030])))
  <> 2%nat.
Proof. split; [reflexivity | discriminate]. Qed.

(** The same burst, seen through [throttle_burst_leading_only]. *)
Lemma throttle_burst_leading_only_witness :
  Throttle.requests Throttle.instant 100 (Throttle.initial 0)
    [1000; 1010; 1020; 1030]
  = ({| Throttle.lastRun := 1000 |},
     [Throttle.Executed 1000 1000; Throttle.Dropped 1010;
      Throttle.Dropped 1020; Throttle.Dropped 1030]).
Proof.
  apply (throttle_burst_leading_only Throttle.instant 100
           (Throttle.initial 0) 1000 1000 [1010; 1020; 1030]).
  - simpl. lia.
  - reflexivity.
  - lia.
  - repeat constructor.
Defined.

(** C2, counterexample: the hook is created at time 0 with a 100 ms delay
    and the first request comes at time 10. It is dropped. *)
Lemma first_request_counterexample :
  Throttle.invoked
    (snd (Throttle.throttled Throttle.instant 100 (Throttle.initial 0) 10))
  = false /\
  Throttle.throttled Throttle.instant 100 (Throttle.initial 0) 10
  = (Throttle.initial 0, Throttle.Dropped 10).
Proof. split; reflexivity. Qed.

(** A first request exactly [delay] ms after the first render runs the
    action; one millisecond earlier it is dropped. *)
Lemma first_request_gate_witness :
  Throttle.throttled Throttle.instant 100 (Throttle.initial 0) 100
  = ({| Throttle.lastRun := 100 |}, Throttle.Executed 100 100) /\
  Throttle.throttled Throttle.instant 100 (Throttle.initial 0) 99
  = (Throttle.initial 0, Throttle.Dropped 99).
Proof.
  destruct (first_request_gate Throttle.instant 100 0 100) as [_ [Hrun _]].
  destruct (first_request_gate Throttle.instant 100 0 99) as [_ [_ Hdrop]].
  split.
  - apply Hrun; [lia | reflexivity].
  - apply Hdrop. lia.
Defined.

(** C3, counterexample: an action that throws is entered at 100 and again
    at 101 although the window is 100 ms: the first execution did not
    return, so no time was recorded for it. *)
Lemma throttle_window_counterexample :
  Throttle.executions
    (snd (Throttle.requests Throttle.failing 100 (Throttle.initial 0)
            [100; 101]))
  = [Throttle.Raised 100 "boom"; Throttle.Raised 101 "boom"] /\
  Throttle.entered (Throttle.Raised 101 "boom")
  - Throttle.entered (Throttle.Raised 100 "boom") < 100.
Proof. split; reflexivity. Qed.

(** Requests at 50, 100, 150 and 250 with a 100 ms window: the action runs
    at 100 and at 250, and a request at 350 would run it again. *)
Lemma throttle_window_enforced_witness :
  100 <= Throttle.entered (Throttle.Executed 250 250) - 100 /\
  Throttle.invoked
    (snd (Throttle.throttled Throttle.instant 100
            (fst (Throttle.requests Throttle.instant 100 (Throttle.initial 0)
                    [50; 100; 150; 250]))
            (250 + 100)))
  = true.
Proof.
  destruct (throttle_window_enforced Throttle.instant 100
              (Throttle.initial 0) [50; 100; 150; 250])
    as [Hgap Hedge].
  - intros t fired Hcb. injection Hcb as <-. lia.
  - split.
    + apply (Hgap [] (Throttle.Executed 250 250) [] 100 100). reflexivity.
    + apply Hedge. reflexivity.
Defined.


(** * Properties of the timer facility *)

Lemma to_long_small (z : Z) :
  - 2 ^ 31 <= z < 2 ^ 31 -> Host.to_long z = z.
Proof.
  intros Hz. unfold Host.to_long.
  change (2 ^ 32) with 4294967296 in *.
  change (2 ^ 31) with 2147483648 in *.
  rewrite Z.mod_small; lia.
Qed.

(** A timeout the host can hold is waited for as given. *)
Lemma timeout_ms_small (z : Z) :
  0 <= z < 2 ^ 31 -> Host.timeout_ms z = z.
Proof.
  intros Hz. unfold Host.timeout_ms.
  rewrite to_long_small; change (2 ^ 31) with 2147483648 in *; lia.
Qed.

(** A negative timeout is not waited for at all. *)
Lemma timeout_ms_negative (z : Z) :
  - 2 ^ 31 <= z < 0 -> Host.timeout_ms z = 0.
Proof.
  intros Hz. unfold Host.timeout_ms.
  rewrite to_long_small; change (2 ^ 31) with 2147483648 in *; lia.
Qed.

Section HostFacts.
Context {A : Type}.
Implicit Types (h : Host.t A) (tm : Host.timer A) (l : list (Host.timer A)).

Lemma filter_twice (f : Host.timer A -> bool) l :
  filter f (filter f l) = filter f l.
Proof.
  induction l as [| x l IH]; [reflexivity |]. simpl.
  destruct (f x) eqn:Hx; simpl; [rewrite Hx, IH |]; auto.
Qed.

Lemma clearTimeout_twice h (id : option nat) :
  Host.clearTimeout (Host.clearTimeout h id) id = Host.clearTimeout h id.
Proof. unfold Host.clearTimeout. simpl. now rewrite filter_twice. Qed.

Lemma In_insert_due tm x l :
  In x (Host.insert_due tm l) <-> x = tm \/ In x l.
Proof.
  induction l as [| y l IH]; simpl.
  - intuition.
  - destruct (Host.due y <? Host.due tm); simpl; rewrite ?IH; intuition.
Qed.

Lemma In_by_due x l : In x (Host.by_due l) <-> In x l.
Proof.
  induction l as [| y l IH]; simpl; [reflexivity |].
  rewrite In_insert_due, IH. intuition.
Qed.

Lemma expired_pending h (now : Z) tm :
  In tm (Host.expired h now) -> In tm (Host.pending h).
Proof.
  unfold Host.expired. rewrite In_by_due, filter_In. tauto.
Qed.

Lemma expired_idle h (now : Z) :
  Host.pending h = [] -> Host.expired h now = [].
Proof. unfold Host.expired. now intros ->. Qed.

Lemma advance_idle h (now : Z) :
  Host.pending h = [] -> Host.pending (Host.advance h now) = [].
Proof. simpl. now intros ->. Qed.

(** Letting time pass never adds a timer: of a single pending timer either
    it stays or it is gone. *)
Lemma advance_single h (now : Z) tm :
  Host.pending h = [tm] ->
  Host.pending (Host.advance h now) = [] \/
  Host.pending (Host.advance h now) = [tm].
Proof.
  intros Hp. simpl. rewrite Hp. simpl.
  destruct (Host.is_due now tm); simpl; auto.
Qed.

End HostFacts.

(** * Properties of useDebounce *)

Section DebounceFacts.
Import Debounce.
Variable T : Type.
Variable T_eq_dec : forall a b : T, {a = b} + {a <> b}.

Local Abbreviation world := (Debounce.world T).
Local Abbreviation hook := (Debounce.hook T).
Local Abbreviation op := (Debounce.op T).
Local Abbreviation event := (Debounce.event T).
Local Abbreviation mount := (Debounce.mount T).
Local Abbreviation render := (Debounce.render T T_eq_dec).
Local Abbreviation unmount := (Debounce.unmount T).
Local Abbreviation tick := (Debounce.tick T).
Local Abbreviation step := (Debounce.step T T_eq_dec).
Local Abbreviation exec := (Debounce.exec T T_eq_dec).
Local Abbreviation fire := (Debounce.fire T).
Local Abbreviation same := (Debounce.same T T_eq_dec).
Local Abbreviation currentOutput := (Debounce.currentOutput T).
Local Abbreviation owns_pending := (Debounce.owns_pending T).
Local Abbreviation outstanding := (Debounce.outstanding T).

Lemma same_diff (a b : T) : a <> b -> same a b = false.
Proof. unfold Debounce.same. destruct (T_eq_dec a b); congruence. Qed.

Lemma exec_cons (o : op) (rest : list op) (w : world) :
  exec (o :: rest) w =
  (fst (exec rest (fst (step o w))),
   snd (step o w) ++ snd (exec rest (fst (step o w)))).
Proof.
  simpl. destruct (Debounce.step T T_eq_dec o w) as [w1 e1]. simpl.
  destruct (Debounce.exec T T_eq_dec rest w1); reflexivity.
Qed.

Lemma exec_app (ops1 ops2 : list op) :
  forall w : world,
    exec (ops1 ++ ops2) w =
    (fst (exec ops2 (fst (exec ops1 w))),
     snd (exec ops1 w) ++ snd (exec ops2 (fst (exec ops1 w)))).
Proof.
  induction ops1 as [| o ops1 IH]; intros w.
  - simpl. now destruct (Debounce.exec T T_eq_dec ops2 w).
  - rewrite <- app_comm_cons, !exec_cons, IH. simpl.
    now rewrite app_assoc.
Qed.

Lemma fire_inst (tm : Host.timer T) (hk : hook) (log : list event) :
  handler (fst (fire tm (hk, log))) = handler hk /\
  mounted (fst (fire tm (hk, log))) = mounted hk /\
  (debouncedValue (fst (fire tm (hk, log))) = debouncedValue hk \/
   debouncedValue (fst (fire tm (hk, log))) = Host.task tm).
Proof.
  unfold Debounce.fire, timer_callback, setDebouncedValue. simpl.
  destruct (mounted hk) eqn:Hm; simpl; auto.
Qed.

(** What the firing of some timers leaves of the hook: everything but the
    state cell, which holds the old value or one of the tasks. *)
Lemma fire_all (l : list (Host.timer T)) :
  forall (hk : hook) (log : list event),
    handler (fst (fold_left (fun acc tm => fire tm acc) l (hk, log)))
    = handler hk /\
    mounted (fst (fold_left (fun acc tm => fire tm acc) l (hk, log)))
    = mounted hk /\
    (debouncedValue (fst (fold_left (fun acc tm => fire tm acc) l (hk, log)))
     = debouncedValue hk \/
     exists tm, In tm l /\
       debouncedValue
         (fst (fold_left (fun acc tm => fire tm acc) l (hk, log)))
       = Host.task tm).
Proof.
  induction l as [| tm l IH]; intros hk log; cbn [fold_left]; [simpl; auto |].
  destruct (fire_inst tm hk log) as (Hh & Hm & Hv).
  destruct (Debounce.fire T tm (hk, log)) as [hk1 log1]. simpl in *.
  destruct (IH hk1 log1) as (Hh1 & Hm1 & Hv1).
  rewrite Hh1, Hm1, Hh, Hm. repeat split.
  destruct Hv1 as [Hv1 | (x & Hx & Hv1)].
  - rewrite Hv1. destruct Hv as [Hv | Hv]; [left | right]; eauto.
  - right. eauto.
Qed.

Lemma tick_inst (now : Z) (w : world) :
  handler (inst (fst (tick now w))) = handler (inst w) /\
  mounted (inst (fst (tick now w))) = mounted (inst w) /\
  (currentOutput (fst (tick now w)) = currentOutput w \/
   exists tm, In tm (Host.pending (host w)) /\
              currentOutput (fst (tick now w)) = Host.task tm) /\
  host (fst (tick now w)) = Host.advance (host w) now.
Proof.
  unfold Debounce.tick, Debounce.currentOutput.
  pose proof (fire_all (Host.expired (host w) now) (inst w) []) as Hf.
  simpl in Hf.
  destruct (fold_left _ (Host.expired (host w) now) (inst w, []))
    as [hk log]. simpl in *.
  destruct Hf as (Hh & Hm & Hv). repeat split; auto.
  destruct Hv as [Hv | (tm & Hin & Hv)]; [left | right]; auto.
  exists tm. split; [eapply expired_pending; eassumption | assumption].
Qed.

Lemma tick_idle (now : Z) (w : world) :
  Host.pending (host w) = [] ->
  tick now w = ({| host := Host.advance (host w) now; inst := inst w |}, []).
Proof.
  intros Hp. unfold Debounce.tick. now rewrite expired_idle.
Qed.

(** A render with the value and the delay of the render before runs no
    effect: nothing is cancelled and nothing is scheduled. *)
Lemma render_same_deps (v : T) (d : Z) (w : world) :
  same_deps T T_eq_dec v d (inst w) = true -> render v d w = w.
Proof.
  intros Hsame. unfold Debounce.render. rewrite Hsame.
  now destruct (negb (mounted (inst w))).
Qed.

Lemma mount_owns (t0 : Z) (v : T) (d : Z) : owns_pending (mount t0 v d).
Proof. right. eexists. split; reflexivity. Qed.

(** Every operation keeps the single slot: a render with new dependencies
    cancels what the last effect scheduled before it schedules again, a
    tick only removes, and unmounting cancels. *)
Lemma step_owns (o : op) (w : world) :
  owns_pending w -> owns_pending (fst (step o w)).
Proof.
  intros Hinv. destruct o as [v d | now |]; simpl.
  - unfold Debounce.render.
    destruct (negb (mounted (inst w))); [exact Hinv |].
    destruct (same_deps T T_eq_dec v d (inst w)); [exact Hinv |].
    right. simpl.
    destruct Hinv as [Hp | (tm & Hp & Hh)]; rewrite Hp; simpl.
    + eexists. split; reflexivity.
    + rewrite Hh, Nat.eqb_refl. simpl. eexists. split; reflexivity.
  - destruct (tick_inst now w) as (Hh & _ & _ & Hhost).
    unfold Debounce.owns_pending. rewrite Hhost, Hh.
    destruct Hinv as [Hp | (tm & Hp & Htm)].
    + left. now apply advance_idle.
    + destruct (advance_single (host w) now tm Hp) as [Hq | Hq].
      * now left.
      * right. exists tm. split; assumption.
  - left. simpl.
    destruct Hinv as [Hp | (tm & Hp & Hh)]; rewrite Hp; simpl;
      [reflexivity |].
    now rewrite Hh, Nat.eqb_refl.
Qed.

Lemma exec_owns (ops : list op) :
  forall w : world, owns_pending w -> owns_pending (fst (exec ops w)).
Proof.
  induction ops as [| o ops IH]; intros w Hinv; [exact Hinv |].
  rewrite exec_cons. simpl. apply IH, step_owns, Hinv.
Qed.

Lemma owns_outstanding (w : world) :
  owns_pending w -> (outstanding w <= 1)%nat.
Proof.
  unfold Debounce.outstanding.
  intros [Hp | (tm & Hp & _)]; rewrite Hp; simpl; lia.
Qed.

Lemma unmount_clears (w : world) :
  owns_pending w -> Host.pending (host (unmount w)) = [].
Proof.
  intros [Hp | (tm & Hp & Hh)]; simpl; rewrite Hp; simpl; [reflexivity |].
  now rewrite Hh, Nat.eqb_refl.
Qed.

Lemma unmount_twice (w : world) : unmount (unmount w) = unmount w.
Proof.
  unfold Debounce.unmount. simpl. f_equal.
  apply (clearTimeout_twice (host w)).
Qed.

(** Once the hook is unmounted and its timer gone, nothing fires and the
    output stays, whatever comes. *)
Lemma idle_unmounted (ops : list op) :
  forall w : world,
    Host.pending (host w) = [] -> mounted (inst w) = false ->
    snd (exec ops w) = [] /\
    currentOutput (fst (exec ops w)) = currentOutput w /\
    Host.pending (host (fst (exec ops w))) = [].
Proof.
  induction ops as [| o ops IH]; intros w Hp Hm; [auto |].
  rewrite exec_cons.
  assert (Hstep : snd (step o w) = [] /\
                  Host.pending (host (fst (step o w))) = [] /\
                  mounted (inst (fst (step o w))) = false /\
                  currentOutput (fst (step o w)) = currentOutput w).
  { destruct o as [v d | now |]; simpl.
    - unfold Debounce.render. rewrite Hm. simpl. auto.
    - rewrite (tick_idle now w Hp). simpl.
      repeat split; auto. now rewrite Hp.
    - rewrite Hp. simpl. auto. }
  destruct Hstep as (He & Hp1 & Hm1 & Ho1).
  destruct (IH _ Hp1 Hm1) as (He2 & Ho2 & Hp2). simpl.
  rewrite He, He2, Ho2, Ho1. auto.
Qed.

Lemma mount_armed (t0 : Z) (v0 : T) (d : Z) :
  mount t0 v0 d = armed T 2 1 t0 v0 v0 d.
Proof. reflexivity. Qed.

(** The timer of an armed hook fires once its time has come. *)
Lemma tick_armed_fire (n h : nat) (t : Z) (v out : T) (d now : Z) :
  t + Host.timeout_ms d <= now ->
  tick now (armed T n h t v out d) =
  ({| host := {| Host.clock := Z.max t now; Host.next_handle := n;
                 Host.pending := [] |};
      inst := {| debouncedValue := v; value := v; delay := d;
                 handler := h; mounted := true |} |},
   [Fired (t + Host.timeout_ms d) v out]).
Proof.
  intros Hdue. unfold Debounce.tick, armed, Host.expired, Host.advance,
    Host.is_due. simpl.
  destruct (Z.leb_spec (t + Host.timeout_ms d) now); [reflexivity | lia].
Qed.

Lemma tick_armed_wait (n h : nat) (t : Z) (v out : T) (d now : Z) :
  now < t + Host.timeout_ms d ->
  tick now (armed T n h t v out d) =
  ({| host := {| Host.clock := Z.max t now; Host.next_handle := n;
                 Host.pending :=
                   [{| Host.handle := h; Host.due := t + Host.timeout_ms d;
                       Host.task := v |}] |};
      inst := {| debouncedValue := out; value := v; delay := d;
                 handler := h; mounted := true |} |},
   []).
Proof.
  intros Hwait. unfold Debounce.tick, armed, Host.expired, Host.advance,
    Host.is_due. simpl.
  destruct (Z.leb_spec (t + Host.timeout_ms d) now); [lia | reflexivity].
Qed.

(** A new value, observed at [t1] after the value [v] of time [t]: the
    pending timer has fired if its time had come and is cancelled if not,
    and the hook is armed again for the new value. *)
Lemma input_step (n h : nat) (t : Z) (v out : T) (d t1 : Z) (v1 : T) :
  t < t1 -> v1 <> v ->
  exec [Tick t1; Render v1 d] (armed T n h t v out d) =
  if t + Host.timeout_ms d <=? t1
  then (armed T (S n) n t1 v1 v d, [Fired (t + Host.timeout_ms d) v out])
  else (armed T (S n) n t1 v1 out d, []).
Proof.
  intros Hlt Hne. rewrite exec_cons. cbn [Debounce.step].
  destruct (Z.leb_spec (t + Host.timeout_ms d) t1) as [Hdue | Hwait].
  - rewrite (tick_armed_fire n h t v out d t1 Hdue). simpl.
    unfold Debounce.render, same_deps. simpl.
    rewrite (same_diff v1 v Hne). simpl.
    unfold armed. now rewrite !Z.max_r by lia.
  - rewrite (tick_armed_wait n h t v out d t1 Hwait). simpl.
    unfold Debounce.render, same_deps. simpl.
    rewrite (same_diff v1 v Hne). simpl.
    rewrite Nat.eqb_refl. simpl.
    unfold armed. now rewrite !Z.max_r by lia.
Qed.

Lemma timeline_from_armed (d horizon : Z) (inputs : list (Z * T)) :
  forall (n h : nat) (t : Z) (v out : T),
    increasing T t inputs -> fresh T v inputs ->
    last_time T t inputs + Host.timeout_ms d <= horizon ->
    snd (exec (script T d inputs ++ [Tick horizon]) (armed T n h t v out d))
    = spec_timeline T (Host.timeout_ms d) out t v inputs.
Proof.
  induction inputs as [| [t1 v1] rest IH];
    intros n h t v out Hinc Hfresh Hlast.
  - simpl in *. now rewrite (tick_armed_fire n h t v out d horizon Hlast).
  - simpl in Hinc, Hfresh, Hlast.
    destruct Hinc as [Hlt Hinc]. destruct Hfresh as [Hne Hfresh].
    change (script T d ((t1, v1) :: rest) ++ [Tick horizon])
      with ([Tick t1; Render v1 d] ++ (script T d rest ++ [Tick horizon])).
    rewrite exec_app, (input_step n h t v out d t1 v1 Hlt Hne).
    cbn [spec_timeline].
    destruct (t + Host.timeout_ms d <=? t1); simpl; now rewrite IH.
Qed.

(** The runs of the timers are the quiet periods, the first render counted
    as an input. *)
Lemma spec_timeline_periods (d : Z) (inputs : list (Z * T)) :
  forall (out : T) (t : Z) (v : T),
    map (stamp T) (spec_timeline T d out t v inputs)
    = quiet_periods T d ((t, v) :: inputs).
Proof.
  induction inputs as [| [t1 v1] rest IH]; intros out t v; [reflexivity |].
  cbn [spec_timeline]. change (quiet_periods T d ((t, v) :: (t1, v1) :: rest))
    with (if t + d <=? t1
          then (t + d, v) :: quiet_periods T d ((t1, v1) :: rest)
          else quiet_periods T d ((t1, v1) :: rest)).
  destruct (t + d <=? t1); simpl; now rewrite IH.
Qed.

(** A quiet period ends [d] ms after the input it settles on. *)
Lemma quiet_periods_inputs (d : Z) (inputs : list (Z * T)) :
  forall (te : Z) (v : T),
    In (te, v) (quiet_periods T d inputs) -> In (te - d, v) inputs.
Proof.
  induction inputs as [| [t v0] rest IH]; intros te v Hin; [destruct Hin |].
  cbn [quiet_periods] in Hin. destruct rest as [| [t1 v1] rest].
  - destruct Hin as [Heq | []]. injection Heq as <- <-.
    left. f_equal. lia.
  - destruct (t + d <=? t1).
    + destruct Hin as [Heq | Hin].
      * injection Heq as <- <-. left. f_equal. lia.
      * right. now apply IH.
    + right. now apply IH.
Qed.

(** Quiet periods end in the order of their inputs. *)
Lemma quiet_periods_ordered (d : Z) (inputs : list (Z * T)) :
  forall (lo t : Z) (v : T),
    increasing T t inputs -> lo < t + d ->
    increasing T lo (quiet_periods T d ((t, v) :: inputs)).
Proof.
  induction inputs as [| [t1 v1] rest IH]; intros lo t v Hinc Hlo.
  - simpl. auto.
  - destruct Hinc as [Hlt Hinc].
    change (quiet_periods T d ((t, v) :: (t1, v1) :: rest))
      with (if t + d <=? t1
            then (t + d, v) :: quiet_periods T d ((t1, v1) :: rest)
            else quiet_periods T d ((t1, v1) :: rest)).
    destruct (t + d <=? t1).
    + split; [exact Hlo |]. apply IH; [exact Hinc | lia].
    + apply IH; [exact Hinc | lia].
Qed.

(** The output is always the first value or a value of some render. *)
Lemma exec_known (ops : list op) :
  forall (w : world) (seen : list T),
    In (currentOutput w) seen ->
    (forall tm, In tm (Host.pending (host w)) -> In (Host.task tm) seen) ->
    In (currentOutput (fst (exec ops w))) (seen ++ rendered T ops).
Proof.
  induction ops as [| o ops IH]; intros w seen Hout Hpend.
  - simpl. now rewrite app_nil_r.
  - rewrite exec_cons. cbn [fst]. destruct o as [v d | now |].
    + cbn [rendered Debounce.step fst].
      replace (seen ++ v :: rendered T ops)
        with ((seen ++ [v]) ++ rendered T ops)
        by (now rewrite <- app_assoc).
      apply IH; unfold Debounce.render;
        destruct (negb (mounted (inst w)));
        try destruct (same_deps T T_eq_dec v d (inst w)); simpl;
        try (apply in_or_app; left; exact Hout);
        try (intros tm Hin; apply in_or_app; left; now apply Hpend).
      intros tm Hin. apply in_app_or in Hin. apply in_or_app.
      destruct Hin as [Hin | [<- | []]].
      * left. apply Hpend. apply filter_In in Hin. tauto.
      * right. left. reflexivity.
    + cbn [rendered Debounce.step].
      destruct (tick_inst now w) as (_ & _ & Hv & Hhost).
      apply IH.
      * destruct Hv as [-> | (tm & Hin & ->)]; auto.
      * rewrite Hhost. simpl. intros tm Hin.
        apply filter_In in Hin. apply Hpend. tauto.
    + cbn [rendered Debounce.step fst]. apply IH; [exact Hout |].
      simpl. intros tm Hin. apply filter_In in Hin. apply Hpend. tauto.
Qed.

End DebounceFacts.

(** * Properties of useWindowSize *)

Section WindowSizeFacts.
Import WindowSize.

Lemma ws_exec_cons (o : op) (rest : list op) (w : world) :
  exec (o :: rest) w =
  (fst (exec rest (fst (step o w))),
   snd (step o w) ++ snd (exec rest (fst (step o w)))).
Proof.
  simpl. destruct (step o w) as [w1 e1]. simpl.
  destruct (exec rest w1); reflexivity.
Qed.

Lemma ws_fire_all (win : size) (l : list (Host.timer unit)) :
  forall (hk : hook) (log : list event),
    timeoutId (fst (fold_left (fun acc tm => fire win tm acc) l (hk, log)))
    = timeoutId hk /\
    listening (fst (fold_left (fun acc tm => fire win tm acc) l (hk, log)))
    = listening hk.
Proof.
  induction l as [| tm l IH]; intros hk log; cbn [fold_left].
  - simpl. auto.
  - unfold fire at 2 4. unfold setWindowSize.
    match goal with
    | |- context [fold_left _ l (?hk1, ?log1)] =>
        destruct (IH hk1 log1) as (Hid & Hlis)
    end.
    rewrite Hid, Hlis. destruct (listening hk) eqn:Hl; simpl; auto.
Qed.

Lemma ws_tick_inst (now : Z) (w : world) :
  timeoutId (inst (fst (tick now w))) = timeoutId (inst w) /\
  listening (inst (fst (tick now w))) = listening (inst w) /\
  host (fst (tick now w)) = Host.advance (host w) now.
Proof.
  unfold tick.
  destruct (ws_fire_all (window w) (Host.expired (host w) now) (inst w) [])
    as (Hid & Hlis).
  destruct (fold_left _ (Host.expired (host w) now) (inst w, []))
    as [hk log]. simpl in *. auto.
Qed.

Lemma ws_tick_idle (now : Z) (w : world) :
  Host.pending (host w) = [] ->
  tick now w =
  ({| host := Host.advance (host w) now; window := window w;
      inst := inst w |}, []).
Proof. intros Hp. unfold tick. now rewrite expired_idle. Qed.

Lemma ws_mount_owns (t0 : Z) (win : size) : owns_pending (mount t0 win).
Proof. now left. Qed.

(** The handler clears the timer it set last before it sets the next one,
    so the slot never holds two. *)
Lemma ws_step_owns (o : op) (w : world) :
  owns_pending w -> owns_pending (fst (step o w)).
Proof.
  intros Hinv. destruct o as [win | now |]; simpl.
  - unfold resize. destruct (listening (inst w)); [| exact Hinv].
    right. unfold handleResize. simpl.
    destruct Hinv as [Hp | (tm & Hp & Hid)]; rewrite Hp; simpl.
    + eexists. split; reflexivity.
    + rewrite Hid. simpl. rewrite Nat.eqb_refl. simpl.
      eexists. split; reflexivity.
  - destruct (ws_tick_inst now w) as (Hid & _ & Hhost).
    unfold owns_pending. rewrite Hhost, Hid.
    destruct Hinv as [Hp | (tm & Hp & Htm)].
    + left. now apply advance_idle.
    + destruct (advance_single (host w) now tm Hp) as [Hq | Hq].
      * now left.
      * right. exists tm. split; assumption.
  - left. simpl.
    destruct Hinv as [Hp | (tm & Hp & Hid)]; rewrite Hp; simpl;
      [reflexivity |].
    rewrite Hid. simpl. now rewrite Nat.eqb_refl.
Qed.

Lemma ws_exec_owns (ops : list op) :
  forall w : world, owns_pending w -> owns_pending (fst (exec ops w)).
Proof.
  induction ops as [| o ops IH]; intros w Hinv; [exact Hinv |].
  rewrite ws_exec_cons. simpl. apply IH, ws_step_owns, Hinv.
Qed.

Lemma ws_owns_outstanding (w : world) :
  owns_pending w -> (outstanding w <= 1)%nat.
Proof.
  unfold outstanding.
  intros [Hp | (tm & Hp & _)]; rewrite Hp; simpl; lia.
Qed.

Lemma ws_unmount_clears (w : world) :
  owns_pending w -> Host.pending (host (unmount w)) = [].
Proof.
  intros [Hp | (tm & Hp & Hid)]; simpl; rewrite Hp; simpl; [reflexivity |].
  rewrite Hid. simpl. now rewrite Nat.eqb_refl.
Qed.

Lemma ws_unmount_twice (w : world) : unmount (unmount w) = unmount w.
Proof.
  unfold unmount. simpl. f_equal.
  apply (clearTimeout_twice (host w)).
Qed.

(** After the unmount the listener is gone and the timer cancelled: resize
    events reach nobody, nothing fires, the reported size stays. *)
Lemma ws_idle_unmounted (ops : list op) :
  forall w : world,
    Host.pending (host w) = [] -> listening (inst w) = false ->
    snd (exec ops w) = [] /\
    windowSize (inst (fst (exec ops w))) = windowSize (inst w) /\
    Host.pending (host (fst (exec ops w))) = [].
Proof.
  induction ops as [| o ops IH]; intros w Hp Hl; [auto |].
  rewrite ws_exec_cons.
  assert (Hstep : snd (step o w) = [] /\
                  Host.pending (host (fst (step o w))) = [] /\
                  listening (inst (fst (step o w))) = false /\
                  windowSize (inst (fst (step o w))) = windowSize (inst w)).
  { destruct o as [win | now |]; simpl.
    - unfold resize. rewrite Hl. simpl. auto.
    - rewrite (ws_tick_idle now w Hp). simpl.
      repeat split; auto. now rewrite Hp.
    - rewrite Hp. simpl. auto. }
  destruct Hstep as (He & Hp1 & Hl1 & Ho1).
  destruct (IH _ Hp1 Hl1) as (He2 & Ho2 & Hp2). simpl.
  rewrite He, He2, Ho2, Ho1. auto.
Qed.

End WindowSizeFacts.

(** * The debounce contract *)

Section DebounceContract.
Import Debounce.
Variable T : Type.
Variable T_eq_dec : forall a b : T, {a = b} + {a <> b}.

(** C4, as amended: take renders at strictly increasing times, each with a
    value other than the one before, and a delay that is not negative and
    that the host can hold, that is, below 2^31.
    Then the timer callback runs exactly once for every quiet period, the
    first render counting as an input: at the end of the period, with the
    last value observed, in the order of the inputs, and never with a value
    that a newer one has replaced: the runs are the quiet periods, each
    ends [d] ms after the input it carries, and their times increase. A run
    changes the output only when its value differs from the output of that
    moment, so each quiet period brings at most one output change, and none
    when the value it settles on is the output already. *)
Theorem debounce_settles
    (t0 : Z) (v0 : T) (d : Z) (inputs : list (Z * T)) (horizon : Z) :
  0 <= d < 2 ^ 31 ->
  increasing T t0 inputs ->
  fresh T v0 inputs ->
  last_time T t0 inputs + d <= horizon ->
  timeline T T_eq_dec t0 v0 d inputs horizon
  = spec_timeline T d v0 t0 v0 inputs /\
  map (stamp T) (timeline T T_eq_dec t0 v0 d inputs horizon)
  = quiet_periods T d ((t0, v0) :: inputs) /\
  (forall (te : Z) (v : T),
     In (te, v) (map (stamp T) (timeline T T_eq_dec t0 v0 d inputs horizon)) ->
     In (te - d, v) ((t0, v0) :: inputs)) /\
  increasing T (t0 - 1)
    (map (stamp T) (timeline T T_eq_dec t0 v0 d inputs horizon)) /\
  incl (output_changes T T_eq_dec
          (timeline T T_eq_dec t0 v0 d inputs horizon))
       (quiet_periods T d ((t0, v0) :: inputs)).
Proof.
  intros Hd Hinc Hfresh Hlast.
  assert (Hspec : timeline T T_eq_dec t0 v0 d inputs horizon
                  = spec_timeline T d v0 t0 v0 inputs).
  { unfold timeline. rewrite (mount_armed T t0 v0 d).
    rewrite timeline_from_armed; rewrite ?(timeout_ms_small d Hd);
      auto. }
  split; [exact Hspec |].
  rewrite Hspec, spec_timeline_periods.
  split; [reflexivity |].
  split; [apply quiet_periods_inputs |].
  split; [apply quiet_periods_ordered; [exact Hinc | lia] |].
  rewrite <- spec_timeline_periods with (out := v0).
  unfold output_changes. intros x Hin.
  apply in_map_iff in Hin. destruct Hin as (ev & <- & Hin).
  apply in_map. apply filter_In in Hin. tauto.
Qed.

(** The example of the claim: [a] at the first render at time 0, [b] at
    100, [c] at 150, a delay of 200. One timer run, at 350, with [c]; it is
    an output change since [c] is not [a]. *)
Lemma debounce_coalescing_example (a b c : T) (horizon : Z) :
  b <> a -> c <> b -> c <> a -> 350 <= horizon ->
  timeline T T_eq_dec 0 a 200 [(100, b); (150, c)] horizon
  = [Fired 350 c a] /\
  output_changes T T_eq_dec
    (timeline T T_eq_dec 0 a 200 [(100, b); (150, c)] horizon)
  = [(350, c)].
Proof.
  intros Hba Hcb Hca Hh.
  assert (Htl : timeline T T_eq_dec 0 a 200 [(100, b); (150, c)] horizon
                = [Fired 350 c a]).
  { unfold timeline. rewrite (mount_armed T 0 a 200).
    rewrite timeline_from_armed; change (Host.timeout_ms 200) with 200;
      simpl; auto; lia. }
  split; [exact Htl |].
  rewrite Htl. unfold output_changes. simpl.
  now rewrite (same_diff T T_eq_dec c a Hca).
Qed.

(** C9: right after the first render the output is the value the hook was
    called with: the clock still shows the time of the render and the first
    timer is still pending. Later the output is always that value or a
    value of some render. *)
Theorem debounce_initial_output (t0 : Z) (v : T) (d : Z) :
  useDebounce T t0 v d = Ok (mount T t0 v d) /\
  currentOutput T (mount T t0 v d) = v /\
  Host.clock (host (mount T t0 v d)) = t0 /\
  outstanding T (mount T t0 v d) = 1%nat /\
  forall ops : list (op T),
    In (currentOutput T (fst (exec T T_eq_dec ops (mount T t0 v d))))
       (v :: rendered T ops).
Proof.
  repeat split.
  intros ops. apply (exec_known T T_eq_dec ops (mount T t0 v d) [v]).
  - left. reflexivity.
  - simpl. intros tm [<- | []]. left. reflexivity.
Qed.

End DebounceContract.

(** * The timer slot and its lifecycle *)

(** C5: whatever the renders, resize events, ticks and unmounts after the
    first render, [useDebounce] and [useWindowSize] each have at most one
    timer pending; and when a render brings new dependencies, or a resize
    event reaches the handler, the timer left pending is the one just
    scheduled, the former one having been cancelled first. *)
Theorem single_pending_handle :
  (forall (T : Type) (T_eq_dec : forall a b : T, {a = b} + {a <> b})
          (t0 : Z) (v0 : T) (d : Z) (ops : list (Debounce.op T)),
     let w := fst (Debounce.exec T T_eq_dec ops (Debounce.mount T t0 v0 d)) in
     (Debounce.outstanding T w <= 1)%nat /\
     forall (v : T) (d1 : Z),
       Debounce.mounted (Debounce.inst w) = true ->
       Debounce.same_deps T T_eq_dec v d1 (Debounce.inst w) = false ->
       Host.pending (Debounce.host (Debounce.render T T_eq_dec v d1 w))
       = [{| Host.handle := Host.next_handle (Debounce.host w);
             Host.due :=
               Host.clock (Debounce.host w) + Host.timeout_ms d1;
             Host.task := v |}]) /\
  (forall (t0 : Z) (win : WindowSize.size) (ops : list WindowSize.op),
     let w := fst (WindowSize.exec ops (WindowSize.mount t0 win)) in
     (WindowSize.outstanding w <= 1)%nat /\
     forall win1 : WindowSize.size,
       WindowSize.listening (WindowSize.inst w) = true ->
       Host.pending (WindowSize.host (WindowSize.resize win1 w))
       = [{| Host.handle := Host.next_handle (WindowSize.host w);
             Host.due := Host.clock (WindowSize.host w) + 100;
             Host.task := tt |}]).
Proof.
  split.
  - intros T T_eq_dec t0 v0 d ops w.
    assert (Hinv : Debounce.owns_pending T w)
      by (apply exec_owns, mount_owns).
    split; [now apply owns_outstanding |].
    intros v d1 Hm Hdeps. unfold Debounce.render.
    rewrite Hm, Hdeps. simpl.
    destruct Hinv as [Hp | (tm & Hp & Hh)]; rewrite Hp; simpl;
      [reflexivity |].
    now rewrite Hh, Nat.eqb_refl.
  - intros t0 win ops w.
    assert (Hinv : WindowSize.owns_pending w)
      by (apply ws_exec_owns, ws_mount_owns).
    split; [now apply ws_owns_outstanding |].
    intros win1 Hl. unfold WindowSize.resize, WindowSize.handleResize.
    rewrite Hl. simpl.
    destruct Hinv as [Hp | (tm & Hp & Hid)]; rewrite Hp; simpl;
      [reflexivity |].
    rewrite Hid. simpl. now rewrite Nat.eqb_refl.
Qed.

(** C6: unmounting at any point after the first render, with a timer
    pending or not, leaves no timer pending; from then on no timer callback
    runs and the output stays what it was, whatever is attempted later; and
    a second unmount changes nothing. The same holds for [useWindowSize]. *)
Theorem teardown_cancels :
  (forall (T : Type) (T_eq_dec : forall a b : T, {a = b} + {a <> b})
          (t0 : Z) (v0 : T) (d : Z) (ops later : list (Debounce.op T)),
     let w := fst (Debounce.exec T T_eq_dec ops (Debounce.mount T t0 v0 d)) in
     Host.pending (Debounce.host (Debounce.unmount T w)) = [] /\
     snd (Debounce.exec T T_eq_dec later (Debounce.unmount T w)) = [] /\
     Debounce.currentOutput T
       (fst (Debounce.exec T T_eq_dec later (Debounce.unmount T w)))
     = Debounce.currentOutput T w /\
     Host.pending
       (Debounce.host
          (fst (Debounce.exec T T_eq_dec later (Debounce.unmount T w))))
     = [] /\
     Debounce.unmount T (Debounce.unmount T w) = Debounce.unmount T w) /\
  (forall (t0 : Z) (win : WindowSize.size) (ops later : list WindowSize.op),
     let w := fst (WindowSize.exec ops (WindowSize.mount t0 win)) in
     Host.pending (WindowSize.host (WindowSize.unmount w)) = [] /\
     snd (WindowSize.exec later (WindowSize.unmount w)) = [] /\
     WindowSize.windowSize
       (WindowSize.inst (fst (WindowSize.exec later (WindowSize.unmount w))))
     = WindowSize.windowSize (WindowSize.inst w) /\
     Host.pending
       (WindowSize.host (fst (WindowSize.exec later (WindowSize.unmount w))))
     = [] /\
     WindowSize.unmount (WindowSize.unmount w) = WindowSize.unmount w).
Proof.
  split.
  - intros T T_eq_dec t0 v0 d ops later w.
    assert (Hclear : Host.pending (Debounce.host (Debounce.unmount T w)) = [])
      by (apply unmount_clears, exec_owns, mount_owns).
    destruct (idle_unmounted T T_eq_dec later (Debounce.unmount T w) Hclear
                eq_refl) as (Hquiet & Hout & Hidle).
    repeat split; auto. apply unmount_twice.
  - intros t0 win ops later w.
    assert (Hclear : Host.pending (WindowSize.host (WindowSize.unmount w))
                     = [])
      by (apply ws_unmount_clears, ws_exec_owns, ws_mount_owns).
    destruct (ws_idle_unmounted later (WindowSize.unmount w) Hclear eq_refl)
      as (Hquiet & Hout & Hidle).
    repeat split; auto. apply ws_unmount_twice.
Qed.

(** A timer is indeed pending when the hook is unmounted right after its
    first render, and it is gone afterwards. *)
Example teardown_with_pending_timer :
  Debounce.outstanding string (Debounce.mount string 0 "a"%string 200)
  = 1%nat /\
  Debounce.exec string string_dec [Debounce.Unmount; Debounce.Tick 1000]
    (Debounce.mount string 0 "a"%string 200)
  = ({| Debounce.host := {| Host.clock := 1000; Host.next_handle := 2;
                            Host.pending := [] |};
        Debounce.inst := {| Debounce.debouncedValue := "a"%string;
                            Debounce.value := "a"%string;
                            Debounce.delay := 200;
                            Debounce.handler := 1;
                            Debounce.mounted := false |} |}, []).
Proof. split; reflexivity. Qed.

(** * Configuration and failures *)

(** C7, as amended: neither hook looks at the sign of [delay]. The first
    call returns normally for every [delay], negative ones included.
    [useThrottle] then lets every request through that does not come before
    the recorded time. [useDebounce] hands the delay to [setTimeout] as it
    is, at the first render and in every later effect; the host counts a
    negative timeout as zero, so with a negative delay each value settles
    at the time of its input, as with a delay of 0. *)
Theorem delay_not_validated
    (callback : Z -> result Z) (delay now : Z)
    (T : Type) (T_eq_dec : forall a b : T, {a = b} + {a <> b}) (v : T) :
  Throttle.useThrottle callback delay now = Ok (Throttle.initial now) /\
  Debounce.useDebounce T now v delay = Ok (Debounce.mount T now v delay) /\
  Debounce.host (Debounce.mount T now v delay)
  = snd (Host.setTimeout (Host.boot now) v delay) /\
  (forall (w : Debounce.world T) (v1 : T) (d1 : Z),
     Debounce.mounted (Debounce.inst w) = true ->
     Debounce.same_deps T T_eq_dec v1 d1 (Debounce.inst w) = false ->
     Debounce.host (Debounce.render T T_eq_dec v1 d1 w)
     = snd (Host.setTimeout
              (Host.clearTimeout (Debounce.host w)
                 (Some (Debounce.handler (Debounce.inst w))))
              v1 d1)) /\
  (delay < 0 ->
   forall (s : Throttle.state) (t : Z),
     Throttle.lastRun s <= t ->
     Throttle.throttled callback delay s t =
     match callback t with
     | Ok fired =>
         ({| Throttle.lastRun := fired |}, Throttle.Executed t fired)
     | Throw e => (s, Throttle.Raised t e)
     end) /\
  (- 2 ^ 31 <= delay < 0 ->
   forall (inputs : list (Z * T)) (horizon : Z),
     Debounce.increasing T now inputs ->
     Debounce.fresh T v inputs ->
     Debounce.last_time T now inputs <= horizon ->
     Debounce.timeline T T_eq_dec now v delay inputs horizon
     = Debounce.spec_timeline T 0 v now v inputs).
Proof.
  split; [reflexivity |]. split; [reflexivity |]. split; [reflexivity |].
  split; [| split].
  - intros w v1 d1 Hm Hdeps. unfold Debounce.render.
    rewrite Hm, Hdeps. reflexivity.
  - intros Hneg s t Hle.
    destruct (callback t) as [fired | e] eqn:Hcb.
    + apply throttled_returns; [lia | exact Hcb].
    + apply throttled_throws; [lia | exact Hcb].
  - intros Hneg inputs horizon Hinc Hfresh Hlast.
    unfold Debounce.timeline. rewrite mount_armed.
    rewrite timeline_from_armed; rewrite ?(timeout_ms_negative delay Hneg);
      auto.
    lia.
Qed.




(** * Concrete runs *)

Local Open Scope string_scope.

(** C4, counterexample: the component renders first with ["x"], then with
    ["y"] at 1000 and with ["x"] again at 1100, the delay being 200. The
    inputs are followed by one quiet period, ending at 1300 on the value
    ["x"]; the timer runs then, but the output has been ["x"] all along, so
    that period brings no output change. *)
Lemma debounce_change_counterexample :
  Debounce.timeline string string_dec 0 "x" 200
    [(1000, "y"); (1100, "x")] 5000
  = [Debounce.Fired 200 "x" "x"; Debounce.Fired 1300 "x" "x"] /\
  Debounce.quiet_periods string 200 [(1000, "y"); (1100, "x")]
  = [(1300, "x")] /\
  Debounce.output_changes string string_dec
    (Debounce.timeline string string_dec 0 "x" 200
       [(1000, "y"); (1100, "x")] 5000)
  = [] /\
  Debounce.output_changes string string_dec
    (Debounce.timeline string string_dec 0 "x" 200
       [(1000, "y"); (1100, "x")] 5000)
  <> Debounce.quiet_periods string 200 [(1000, "y"); (1100, "x")].
Proof. repeat split; try reflexivity. discriminate. Qed.

(** The inputs ["a"] at 0, ["b"] at 100 and ["c"] at 150 with a delay of
    200: one timer run, at 350, with ["c"]. *)
Lemma debounce_settles_witness :
  Debounce.timeline string string_dec 0 "a" 200 [(100, "b"); (150, "c")] 1000
  = [Debounce.Fired 350 "c" "a"] /\
  map (Debounce.stamp string)
    (Debounce.timeline string string_dec 0 "a" 200
       [(100, "b"); (150, "c")] 1000)
  = [(350, "c")].
Proof.
  refine (let H := debounce_settles string string_dec 0 "a" 200
                     [(100, "b"); (150, "c")] 1000 _ _ _ _ in
          conj (proj1 H) (proj1 (proj2 H))).
  - lia.
  - simpl. lia.
  - simpl. repeat split; discriminate.
  - simpl. lia.
Defined.

(** A render with a new value while the first timer is pending, and a
    second resize event while the timer of the first is pending: in both
    the timer left is the new one. *)
Lemma single_pending_handle_witness :
  Host.pending
    (Debounce.host
       (Debounce.render string string_dec "b" 200
          (fst (Debounce.exec string string_dec [Debounce.Tick 100]
                  (Debounce.mount string 0 "a" 200)))))
  = [{| Host.handle := 2; Host.due := 300; Host.task := "b" |}] /\
  Host.pending
    (WindowSize.host
       (WindowSize.resize
          {| WindowSize.width := 800; WindowSize.height := 600 |}
          (fst (WindowSize.exec
                  [WindowSize.Resize
                     {| WindowSize.width := 900; WindowSize.height := 600 |};
                   WindowSize.Tick 50]
                  (WindowSize.mount 0
                     {| WindowSize.width := 1000;
                        WindowSize.height := 600 |})))))
  = [{| Host.handle := 2; Host.due := 150; Host.task := tt |}].
Proof.
  destruct single_pending_handle as [Hdebounce Hwindow].
  split.
  - apply (proj2 (Hdebounce string string_dec 0 "a" 200 [Debounce.Tick 100]));
      reflexivity.
  - apply (proj2 (Hwindow 0
                    {| WindowSize.width := 1000; WindowSize.height := 600 |}
                    [WindowSize.Resize
                       {| WindowSize.width := 900; WindowSize.height := 600 |};
                     WindowSize.Tick 50])).
    reflexivity.
Defined.

(** C7, counterexample: both hooks are created with a delay of -1 and
    neither call fails. *)
Lemma negative_delay_counterexample :
  is_ok (Throttle.useThrottle Throttle.instant (-1) 0) = true /\
  is_ok (Debounce.useDebounce string 0 "a" (-1)) = true.
Proof. split; reflexivity. Qed.

(** With a delay of -5 a request made in the millisecond of the first
    render runs the action, and the debounced values settle at the times
    of their inputs. *)
Lemma delay_not_validated_witness :
  Throttle.throttled Throttle.instant (-5) (Throttle.initial 0) 0
  = ({| Throttle.lastRun := 0 |}, Throttle.Executed 0 0) /\
  Debounce.timeline string string_dec 0 "a" (-5) [(100, "b")] 1000
  = [Debounce.Fired 0 "a" "a"; Debounce.Fired 100 "b" "a"].
Proof.
  destruct (delay_not_validated Throttle.instant (-5) 0 string string_dec "a")
    as (_ & _ & _ & _ & Hthrottle & Hdebounce).
  split.
  - apply (Hthrottle ltac:(lia) (Throttle.initial 0) 0). simpl. lia.
  - apply (Hdebounce ltac:(lia) [(100, "b")] 1000).
    + simpl. lia.
    + simpl. split; [discriminate | exact I].
    + simpl. lia.
Defined.



Local Close Scope string_scope.

(** * The rate of a throttled action *)

Lemma last_cons_default {A : Type} (l : list A) :
  forall x d : A, last (x :: l) d = last l x.
Proof.
  induction l as [| y l IH]; intros x d; [reflexivity |].
  change (last (x :: y :: l) d) with (last (y :: l) d).
  now rewrite !IH.
Qed.

Lemma last_In {A : Type} (l : list A) : forall d : A, In (last l d) (d :: l).
Proof.
  induction l as [| x l IH]; intros d; [now left |].
  rewrite last_cons_default. right. apply IH.
Qed.

Lemma filter_none {A : Type} (f : A -> bool) (l : list A) :
  (forall x, In x l -> f x = false) -> filter f l = [].
Proof.
  induction l as [| x l IH]; intros Hall; [reflexivity |]. simpl.
  rewrite (Hall x) by now left.
  apply IH. intros y Hy. apply Hall. now right.
Qed.

Section ThrottleRate.
Import Throttle.
Variable callback : Z -> result Z.
Variable delay : Z.

Local Abbreviation throttled := (Throttle.throttled callback delay).
Local Abbreviation requests := (Throttle.requests callback delay).

Lemma trace_times (times : list Z) :
  forall s : state, map entered (snd (requests s times)) = times.
Proof.
  induction times as [| now rest IH]; intros s; [reflexivity |].
  rewrite requests_cons. simpl. rewrite IH. f_equal.
  destruct (throttled_cases callback delay s now)
    as [[_ ->] | [[_ (fired & _ & ->)] | [_ (e & _ & ->)]]]; reflexivity.
Qed.

Lemma execution_time_requested (times : list Z) (s : state) (ev : event) :
  In ev (executions (snd (requests s times))) -> In (entered ev) times.
Proof.
  intros Hin. apply filter_In in Hin. destruct Hin as [Hin _].
  rewrite <- (trace_times times s). now apply in_map.
Qed.

(** Between the first and the last of [k + 1] executions of an action that
    always returns lie at least [k] windows. *)
Lemma windows_between_executions (times : list Z) :
  (forall t, exists fired, callback t = Ok fired /\ t <= fired) ->
  forall (s : state) (e : event) (more : list event),
    executions (snd (requests s times)) = e :: more ->
    Z.of_nat (List.length more) * delay <= entered (last more e) - entered e.
Proof.
  intros Hret. induction times as [| now rest IH]; intros s e more Hex.
  - discriminate Hex.
  - rewrite requests_cons in Hex. simpl in Hex.
    destruct (throttled_cases callback delay s now)
      as [[_ Heq] | [[_ (fired & Hcb & Heq)] | [_ (x & Hcb & _)]]].
    + rewrite Heq in Hex. simpl in Hex. now apply IH with (s := s).
    + rewrite Heq in Hex. simpl in Hex. injection Hex as <- Hmore.
      destruct more as [| e2 more2]; [simpl; lia |].
      pose proof (first_execution_open callback delay rest _ _ _ Hmore)
        as Hgap.
      pose proof (IH _ _ _ Hmore) as Hrest.
      destruct (Hret now) as (f & Hf & Hle).
      rewrite Hcb in Hf. injection Hf as <-.
      rewrite last_cons_default.
      change (List.length (e2 :: more2)) with (S (List.length more2)).
      rewrite Nat2Z.inj_succ. cbn [lastRun] in Hgap. cbn [entered].
      lia.
    + destruct (Hret now) as (f & Hf & _). congruence.
Qed.

(** X1: an action that always returns runs at most once per window: when
    all the requests of a run fall between [lo] and [hi], the number [k] of
    executions satisfies [(k - 1) * delay <= hi - lo]. *)
Theorem throttle_rate_bound (s : state) (times : list Z) (lo hi : Z) :
  (forall t, exists fired, callback t = Ok fired /\ t <= fired) ->
  0 <= delay ->
  lo <= hi ->
  Forall (fun t => lo <= t <= hi) times ->
  (Z.of_nat (List.length (executions (snd (requests s times)))) - 1) * delay
  <= hi - lo.
Proof.
  intros Hret Hd Hlohi Hin.
  destruct (executions (snd (requests s times))) as [| e more] eqn:Hex.
  - cbn [List.length Z.of_nat]. lia.
  - pose proof (windows_between_executions times Hret s e more Hex) as Hw.
    rewrite Forall_forall in Hin.
    assert (He : lo <= entered e <= hi).
    { apply Hin, (execution_time_requested times s). rewrite Hex. now left. }
    assert (Hl : lo <= entered (last more e) <= hi).
    { apply Hin, (execution_time_requested times s). rewrite Hex.
      apply last_In. }
    replace (Z.of_nat (List.length (e :: more)) - 1)
      with (Z.of_nat (List.length more)) by (simpl List.length; lia).
    lia.
Qed.

(** X2: requests that come slowly enough are never suppressed. When the
    action returns within [c] ms, the first request comes [delay] ms or
    more after the recorded time and each later one [delay + c] ms or more
    after the one before, every request runs the action. *)
Theorem slow_requests_all_run (c : Z) (times : list Z) :
  (forall t, exists fired, callback t = Ok fired /\ fired <= t + c) ->
  forall (s : state) (from : Z),
    lastRun s <= from + c ->
    apart (delay + c) from times ->
    Forall (fun ev => exists fired, ev = Executed (entered ev) fired)
           (snd (requests s times)) /\
    map entered (snd (requests s times)) = times.
Proof.
  intros Hret s from Hs Hapart. split; [| apply trace_times].
  revert s from Hs Hapart.
  induction times as [| now rest IH]; intros s from Hs Hapart;
    [constructor |].
  destruct Hapart as [Hfirst Hrest].
  destruct (Hret now) as (fired & Hcb & Hle).
  rewrite requests_cons,
    (throttled_returns callback delay s now fired) by (assumption || lia).
  simpl. constructor; [now exists fired |].
  apply (IH _ now); [simpl; lia | exact Hrest].
Qed.

End ThrottleRate.

(** * ThrottledScroll *)

Section ScrollFacts.
Import ThrottledScroll.
Variable clock_after : Z -> Z.

Local Abbreviation callback := (ThrottledScroll.callback clock_after).
Local Abbreviation scrolls := (ThrottledScroll.scrolls clock_after).
Local Abbreviation handleScroll := (ThrottledScroll.handleScroll clock_after).

(** The two counters count the events and the executions of the throttled
    action. *)
Lemma scrolls_counts (times : list Z) :
  forall c : component,
    scrollCount (scrolls c times)
    = (scrollCount c + List.length times)%nat /\
    throttledCount (scrolls c times)
    = (throttledCount c +
       List.length
         (Throttle.executions
            (snd (Throttle.requests callback 1000 (throttle c) times))))%nat.
Proof.
  induction times as [| now rest IH]; intros c.
  - simpl. lia.
  - change (scrolls c (now :: rest)) with (scrolls (handleScroll c now) rest).
    destruct (IH (handleScroll c now)) as [Hs Ht]. rewrite Hs, Ht.
    rewrite requests_cons. unfold ThrottledScroll.handleScroll.
    destruct (throttled_cases callback 1000 (throttle c) now)
      as [[_ Heq] | [[_ (fired & _ & Heq)] | [_ (e & Hcb & _)]]];
      [| | discriminate Hcb]; rewrite Heq; simpl; lia.
Qed.

(** X3: in [ThrottledScroll] the throttled counter never exceeds the count
    of scroll events, and for events that all fall between [lo] and [hi] it
    is at most one more than the number of full seconds in between:
    [(throttledCount - 1) * 1000 <= hi - lo]. *)
Theorem scroll_counter_rate (t0 : Z) (times : list Z) (lo hi : Z) :
  (forall t, t <= clock_after t) ->
  lo <= hi ->
  Forall (fun t => lo <= t <= hi) times ->
  scrollCount (scrolls (mount t0) times) = List.length times /\
  (throttledCount (scrolls (mount t0) times)
   <= scrollCount (scrolls (mount t0) times))%nat /\
  (Z.of_nat (throttledCount (scrolls (mount t0) times)) - 1) * 1000
  <= hi - lo.
Proof.
  intros Hclock Hlohi Hin.
  destruct (scrolls_counts times (mount t0)) as [Hs Ht].
  rewrite Hs, Ht. simpl. repeat split.
  - unfold Throttle.executions.
    rewrite <- (trace_times callback 1000 times (Throttle.initial t0))
      at 2.
    rewrite length_map. apply filter_length_le.
  - apply throttle_rate_bound; try assumption; [| lia].
    intros t. exists (clock_after t). split; [reflexivity | apply Hclock].
Qed.

End ScrollFacts.

(** * DebouncedButton *)

Section ButtonFacts.
Import DebouncedButton.

Lemma insert_due_length {A : Type} (tm : Host.timer A) (l : list (Host.timer A)) :
  List.length (Host.insert_due tm l) = S (List.length l).
Proof.
  induction l as [| x l IH]; [reflexivity |]. simpl.
  destruct (Host.due x <? Host.due tm); simpl; [now rewrite IH | reflexivity].
Qed.

Lemma by_due_length {A : Type} (l : list (Host.timer A)) :
  List.length (Host.by_due l) = List.length l.
Proof.
  induction l as [| x l IH]; [reflexivity |]. simpl.
  now rewrite insert_due_length, IH.
Qed.

(** A tick splits the queue into the timers that fire and those that
    stay. *)
Lemma expired_or_pending {A : Type} (h : Host.t A) (now : Z) :
  (List.length (Host.expired h now)
   + List.length (Host.pending (Host.advance h now)))%nat
  = List.length (Host.pending h).
Proof.
  unfold Host.expired. rewrite by_due_length. simpl.
  apply filter_length.
Qed.

Lemma fire_counts (l : list (Host.timer unit)) :
  forall c : component,
    clickCount (fold_left fire l c) = clickCount c /\
    debouncedCount (fold_left fire l c)
    = (debouncedCount c + List.length l)%nat.
Proof.
  induction l as [| tm l IH]; intros c; simpl; [lia |].
  destruct (IH (fire c tm)) as [Hc Hd]. rewrite Hc, Hd. simpl. lia.
Qed.

Lemma button_step_balance (w : world) (o : op) :
  (debouncedCount (inst w) + outstanding w)%nat = clickCount (inst w) ->
  (debouncedCount (inst (step w o)) + outstanding (step w o))%nat
  = clickCount (inst (step w o)).
Proof.
  intros Hbal. destruct o as [| now]; simpl.
  - unfold outstanding, handleClick, debouncedClick in *. simpl.
    rewrite length_app. simpl. lia.
  - unfold outstanding, tick in *. simpl.
    destruct (fire_counts (Host.expired (host w) now) (inst w)) as [Hc Hd].
    rewrite Hc, Hd.
    pose proof (expired_or_pending (host w) now). simpl in *. lia.
Qed.

Lemma button_balance (ops : list op) :
  forall w : world,
    (debouncedCount (inst w) + outstanding w)%nat = clickCount (inst w) ->
    (debouncedCount (inst (exec ops w)) + outstanding (exec ops w))%nat
    = clickCount (inst (exec ops w)).
Proof.
  unfold exec. induction ops as [| o rest IH]; intros w Hbal; [exact Hbal |].
  simpl. now apply IH, button_step_balance.
Qed.

(** X4: in [DebouncedButton] no click is ever dropped or merged: at every
    moment the clicks counted so far plus the timers still pending make up
    the clicks made, and a click adds a timer without cancelling any. *)
Theorem button_counts_every_click (t0 : Z) (ops : list op) :
  let w := exec ops (mount t0) in
  (debouncedCount (inst w) + outstanding w)%nat = clickCount (inst w) /\
  outstanding (handleClick w) = S (outstanding w).
Proof.
  split.
  - now apply button_balance.
  - unfold outstanding, handleClick, debouncedClick. simpl.
    rewrite length_app. simpl. lia.
Qed.

Lemma button_step_due (w : world) (o : op) :
  Forall (fun tm => Host.due tm <= Host.clock (host w) + 2000)
         (Host.pending (host w)) ->
  Forall (fun tm => Host.due tm <= Host.clock (host (step w o)) + 2000)
         (Host.pending (host (step w o))).
Proof.
  intros Hdue. destruct o as [| now]; simpl.
  - apply Forall_app. split; [exact Hdue |].
    constructor; [| constructor].
    cbn [Host.due]. change (Host.timeout_ms 2000) with 2000. lia.
  - rewrite Forall_forall in *. intros tm Hin.
    apply filter_In in Hin. apply proj1, Hdue in Hin. lia.
Qed.

Lemma button_due (ops : list op) :
  forall w : world,
    Forall (fun tm => Host.due tm <= Host.clock (host w) + 2000)
           (Host.pending (host w)) ->
    Forall (fun tm => Host.due tm <= Host.clock (host (exec ops w)) + 2000)
           (Host.pending (host (exec ops w))).
Proof.
  unfold exec. induction ops as [| o rest IH]; intros w Hdue; [exact Hdue |].
  simpl. now apply IH, button_step_due.
Qed.

(** X5: two seconds later every click has been counted, however fast the
    clicks came: after any clicks and ticks, once the clock is 2000 ms
    further no timer is pending and the two counters agree. *)
Theorem button_catches_up (t0 : Z) (ops : list op) (now : Z) :
  Host.clock (host (exec ops (mount t0))) + 2000 <= now ->
  outstanding (tick now (exec ops (mount t0))) = 0%nat /\
  debouncedCount (inst (tick now (exec ops (mount t0))))
  = clickCount (inst (tick now (exec ops (mount t0)))).
Proof.
  intros Hlate.
  assert (Hnone : outstanding (tick now (exec ops (mount t0))) = 0%nat).
  { pose proof (button_due ops (mount t0) (Forall_nil _)) as Hdue.
    unfold outstanding, tick. simpl.
    rewrite Forall_forall in Hdue.
    rewrite filter_none; [reflexivity |].
    intros tm Hin. unfold Host.is_due.
    apply Hdue in Hin.
    destruct (Z.leb_spec (Host.due tm) now); [reflexivity | lia]. }
  split; [exact Hnone |].
  pose proof (button_balance (ops ++ [Tick now]) (mount t0) eq_refl)
    as Hbal.
  unfold exec in *. rewrite fold_left_app in Hbal.
  cbn [fold_left step] in Hbal. rewrite Hnone in Hbal. lia.
Qed.

End ButtonFacts.

(** * Catching up with the input *)

Section DebounceCatchUp.
Import Debounce.
Variable T : Type.
Variable T_eq_dec : forall a b : T, {a = b} + {a <> b}.

Local Abbreviation world := (Debounce.world T).
Local Abbreviation op := (Debounce.op T).
Local Abbreviation mount := (Debounce.mount T).
Local Abbreviation tick := (Debounce.tick T).
Local Abbreviation step := (Debounce.step T T_eq_dec).
Local Abbreviation exec := (Debounce.exec T T_eq_dec).
Local Abbreviation fire := (Debounce.fire T).

Lemma fire_all_value (l : list (Host.timer T)) :
  forall (hk : Debounce.hook T) (log : list (Debounce.event T)),
    value (fst (fold_left (fun acc tm => fire tm acc) l (hk, log)))
    = value hk.
Proof.
  induction l as [| tm l IH]; intros hk log; cbn [fold_left];
    [reflexivity |].
  unfold Debounce.fire at 2, timer_callback, setDebouncedValue.
  rewrite IH. now destruct (mounted hk).
Qed.

Lemma tick_value (now : Z) (w : world) :
  value (inst (fst (tick now w))) = value (inst w).
Proof.
  unfold Debounce.tick.
  pose proof (fire_all_value (Host.expired (host w) now) (inst w) []) as Hv.
  destruct (fold_left _ (Host.expired (host w) now) (inst w, []))
    as [hk log]. exact Hv.
Qed.

(** The only pending timer fires: the state cell takes its task. *)
Lemma tick_single_due (now : Z) (w : world) (tm : Host.timer T) :
  Host.pending (host w) = [tm] -> Host.is_due now tm = true ->
  mounted (inst w) = true ->
  debouncedValue (inst (fst (tick now w))) = Host.task tm.
Proof.
  intros Hp Hdue Hm. unfold Debounce.tick, Host.expired.
  rewrite Hp. simpl. rewrite Hdue. simpl.
  unfold timer_callback, setDebouncedValue. now rewrite Hm.
Qed.

(** While a timer is pending it carries the value of the last render, and
    once none is pending the output is that value. *)
Lemma step_settled (o : op) (w : world) :
  owns_pending T w ->
  (forall tm, In tm (Host.pending (host w)) ->
              Host.task tm = value (inst w)) ->
  (mounted (inst w) = true -> Host.pending (host w) = [] ->
   debouncedValue (inst w) = value (inst w)) ->
  (forall tm, In tm (Host.pending (host (fst (step o w)))) ->
              Host.task tm = value (inst (fst (step o w)))) /\
  (mounted (inst (fst (step o w))) = true ->
   Host.pending (host (fst (step o w))) = [] ->
   debouncedValue (inst (fst (step o w))) = value (inst (fst (step o w)))).
Proof.
  intros Hown Htask Hidle. destruct o as [v d | now |]; cbn [Debounce.step fst].
  - unfold Debounce.render.
    destruct (negb (mounted (inst w))); [auto |].
    destruct (same_deps T T_eq_dec v d (inst w)); [auto |].
    simpl. split.
    + intros tm Hin. apply in_app_or in Hin.
      destruct Hin as [Hin | [<- | []]]; [| reflexivity].
      apply filter_In in Hin. destruct Hin as [Hin Hkeep].
      destruct Hown as [Hp | (tm0 & Hp & Hh)]; rewrite Hp in Hin;
        [destruct Hin |].
      destruct Hin as [<- | []]. unfold Host.targets in Hkeep.
      now rewrite Hh, Nat.eqb_refl in Hkeep.
    + intros _ Hp. now apply app_eq_nil in Hp.
  - destruct (tick_inst T now w) as (_ & Hm & _ & Hhost).
    rewrite tick_value, Hm, Hhost. split.
    + intros tm Hin. simpl in Hin. apply filter_In in Hin.
      apply Htask. tauto.
    + intros Hmounted Hnone.
      destruct Hown as [Hp | (tm & Hp & _)].
      * rewrite (tick_idle T now w Hp). simpl. auto.
      * simpl in Hnone. rewrite Hp in Hnone. simpl in Hnone.
        destruct (Host.is_due now tm) eqn:Hdue; [| discriminate Hnone].
        rewrite (tick_single_due now w tm Hp Hdue Hmounted).
        apply Htask. rewrite Hp. now left.
  - simpl. split; [| discriminate].
    intros tm Hin. apply filter_In in Hin. apply Htask. tauto.
Qed.

Lemma exec_settled (ops : list op) :
  forall w : world,
    owns_pending T w ->
    (forall tm, In tm (Host.pending (host w)) ->
                Host.task tm = value (inst w)) ->
    (mounted (inst w) = true -> Host.pending (host w) = [] ->
     debouncedValue (inst w) = value (inst w)) ->
    mounted (inst (fst (exec ops w))) = true ->
    Host.pending (host (fst (exec ops w))) = [] ->
    debouncedValue (inst (fst (exec ops w)))
    = value (inst (fst (exec ops w))).
Proof.
  induction ops as [| o ops IH]; intros w Hown Htask Hidle; [exact Hidle |].
  rewrite exec_cons. cbn [fst].
  destruct (step_settled o w Hown Htask Hidle) as [Htask1 Hidle1].
  apply IH; [now apply step_owns | exact Htask1 | exact Hidle1].
Qed.

Lemma render_mounted (v : T) (d : Z) (w : world) :
  mounted (inst (Debounce.render T T_eq_dec v d w)) = mounted (inst w).
Proof.
  unfold Debounce.render.
  destruct (mounted (inst w)) eqn:Hm; simpl; [| exact Hm].
  now destruct (same_deps T T_eq_dec v d (inst w)).
Qed.

Lemma render_value (v : T) (d : Z) (w : world) :
  mounted (inst w) = true ->
  value (inst (Debounce.render T T_eq_dec v d w)) = v.
Proof.
  intros Hm. unfold Debounce.render. rewrite Hm. simpl.
  destruct (same_deps T T_eq_dec v d (inst w)) eqn:Hdeps; [| reflexivity].
  unfold same_deps, Debounce.same in Hdeps.
  destruct (T_eq_dec v (value (inst w))); [congruence | discriminate Hdeps].
Qed.

(** A hook that is still mounted has seen every render. *)
Lemma value_is_last_render (ops : list op) :
  forall w : world,
    mounted (inst (fst (exec ops w))) = true ->
    mounted (inst w) = true /\
    value (inst (fst (exec ops w))) = last (rendered T ops) (value (inst w)).
Proof.
  induction ops as [| o ops IH]; intros w Hm; [auto |].
  rewrite exec_cons in *. cbn [fst] in *.
  destruct (IH _ Hm) as [Hm1 Hv]. rewrite Hv.
  destruct o as [v d | now |]; cbn [Debounce.step fst rendered] in *.
  - rewrite render_mounted in Hm1.
    now rewrite last_cons_default, render_value.
  - destruct (tick_inst T now w) as (_ & Hmt & _ & _).
    rewrite tick_value. rewrite Hmt in Hm1. auto.
  - discriminate Hm1.
Qed.

(** X6: the debounced value catches up: whenever the hook is mounted and
    none of its timers is pending, the output is the value of the latest
    render. *)
Theorem debounce_catches_up (t0 : Z) (v0 : T) (d : Z) (ops : list op) :
  mounted (inst (fst (exec ops (mount t0 v0 d)))) = true ->
  Host.pending (host (fst (exec ops (mount t0 v0 d)))) = [] ->
  currentOutput T (fst (exec ops (mount t0 v0 d)))
  = last (rendered T ops) v0.
Proof.
  intros Hm Hnone. unfold Debounce.currentOutput.
  rewrite (exec_settled ops (mount t0 v0 d)); try assumption.
  - now destruct (value_is_last_render ops (mount t0 v0 d) Hm) as [_ ->].
  - apply mount_owns.
  - simpl. intros tm [<- | []]. reflexivity.
  - discriminate.
Qed.

End DebounceCatchUp.

Section WindowCatchUp.
Import WindowSize.

Lemma ws_tick_single_due (now : Z) (w : world) (tm : Host.timer unit) :
  Host.pending (host w) = [tm] -> Host.is_due now tm = true ->
  listening (inst w) = true ->
  windowSize (inst (fst (tick now w))) = window w.
Proof.
  intros Hp Hdue Hl. unfold tick, Host.expired.
  rewrite Hp. simpl. rewrite Hdue. simpl.
  unfold setWindowSize. now rewrite Hl.
Qed.

Lemma ws_tick_window (now : Z) (w : world) :
  window (fst (tick now w)) = window w.
Proof.
  unfold tick.
  now destruct (fold_left _ (Host.expired (host w) now) (inst w, [])).
Qed.

Lemma ws_step_settled (o : op) (w : world) :
  owns_pending w ->
  (listening (inst w) = true -> Host.pending (host w) = [] ->
   windowSize (inst w) = window w) ->
  listening (inst (fst (step o w))) = true ->
  Host.pending (host (fst (step o w))) = [] ->
  windowSize (inst (fst (step o w))) = window (fst (step o w)).
Proof.
  intros Hown Hidle. destruct o as [win | now |]; cbn [step fst].
  - unfold resize. destruct (listening (inst w)) eqn:Hl; simpl.
    + intros _ Hp. now apply app_eq_nil in Hp.
    + intros Hlis. congruence.
  - destruct (ws_tick_inst now w) as (_ & Hl & Hhost).
    rewrite Hl, Hhost, ws_tick_window. intros Hlis Hnone.
    destruct Hown as [Hp | (tm & Hp & _)].
    + rewrite (ws_tick_idle now w Hp). simpl. auto.
    + simpl in Hnone. rewrite Hp in Hnone. simpl in Hnone.
      destruct (Host.is_due now tm) eqn:Hdue; [| discriminate Hnone].
      now apply (ws_tick_single_due now w tm).
  - discriminate.
Qed.

(** X7: the reported window size catches up: whenever [useWindowSize] is
    mounted and no timer is pending, the size it returns is the size the
    window has. *)
Theorem window_size_catches_up
    (t0 : Z) (win : size) (ops : list op) :
  listening (inst (fst (exec ops (mount t0 win)))) = true ->
  Host.pending (host (fst (exec ops (mount t0 win)))) = [] ->
  windowSize (inst (fst (exec ops (mount t0 win))))
  = window (fst (exec ops (mount t0 win))).
Proof.
  assert (Hgen : forall (l : list op) (w : world),
             owns_pending w ->
             (listening (inst w) = true -> Host.pending (host w) = [] ->
              windowSize (inst w) = window w) ->
             listening (inst (fst (exec l w))) = true ->
             Host.pending (host (fst (exec l w))) = [] ->
             windowSize (inst (fst (exec l w))) = window (fst (exec l w))).
  { induction l as [| o l IH]; intros w Hown Hidle; [exact Hidle |].
    rewrite ws_exec_cons. cbn [fst].
    apply IH; [now apply ws_step_owns | now apply ws_step_settled]. }
  apply Hgen; [apply ws_mount_owns | reflexivity].
Qed.

End WindowCatchUp.

(** * ArrayState: the todo list *)

Section TodoFacts.
Import ArrayState.

Lemma toggle_id (i : Z) (t : todo) : id (toggle i t) = id t.
Proof. unfold toggle. now destruct (id t =? i). Qed.

Lemma toggle_text (i : Z) (t : todo) : text (toggle i t) = text t.
Proof. unfold toggle. now destruct (id t =? i). Qed.

Lemma toggle_twice (i : Z) (t : todo) : toggle i (toggle i t) = t.
Proof.
  unfold toggle. destruct (id t =? i) eqn:Hi; simpl; rewrite Hi;
    [| reflexivity].
  destruct t as [n s b]. simpl. now rewrite negb_involutive.
Qed.

(** X8: toggling a todo twice gives back the list as it was, whether the
    id is present, absent or shared by several todos. *)
Theorem toggleTodo_involutive (i : Z) (c : component) :
  toggleTodo i (toggleTodo i c) = c.
Proof.
  destruct c as [l s]. unfold toggleTodo. simpl. f_equal.
  rewrite map_map. rewrite <- (map_id l) at 2.
  apply map_ext. intros t. apply toggle_twice.
Qed.

(** X9: removing the todo just added gives back the todos as they were,
    provided the input was not blank and the clock reading used as its id
    was not the id of a todo already. *)
Theorem remove_added_todo (now : Z) (c : component) :
  JS.truthy (JS.trim (newTodo c)) = true ->
  (forall t, In t (todos c) -> id t <> now) ->
  todos (removeTodo now (addTodo now c)) = todos c.
Proof.
  intros Htext Hfresh. unfold addTodo. rewrite Htext. simpl.
  rewrite filter_app. simpl. rewrite Z.eqb_refl. simpl.
  rewrite app_nil_r.
  induction (todos c) as [| t l IH]; [reflexivity |]. simpl.
  destruct (Z.eqb_spec (id t) now) as [Heq | Hne].
  - exfalso. apply (Hfresh t); [now left | exact Heq].
  - simpl. f_equal. apply IH. intros x Hx. apply Hfresh. now right.
Qed.

Lemma todo_step_text (c : component) (o : op) :
  Forall (fun t => JS.truthy (JS.trim (text t)) = true) (todos c) ->
  Forall (fun t => JS.truthy (JS.trim (text t)) = true) (todos (step c o)).
Proof.
  intros Hall. destruct o as [s | now | i | i]; simpl.
  - exact Hall.
  - unfold addTodo. destruct (JS.truthy (JS.trim (newTodo c))) eqn:Htext;
      [| exact Hall].
    simpl. apply Forall_app. split; [exact Hall |].
    constructor; [exact Htext | constructor].
  - rewrite Forall_forall in *. intros t Hin.
    apply in_map_iff in Hin. destruct Hin as (t0 & <- & Hin).
    rewrite toggle_text. now apply Hall.
  - rewrite Forall_forall in *. intros t Hin.
    apply filter_In in Hin. now apply Hall.
Qed.

(** X10: whatever is typed, added, toggled and removed, no todo of the list
    has a blank text: [addTodo] ignores an input that is empty or only
    white space. *)
Theorem todos_never_blank (ops : list op) :
  Forall (fun t => JS.truthy (JS.trim (text t)) = true)
         (todos (exec ops mount)).
Proof.
  unfold exec.
  assert (Hgen : forall c : component,
             Forall (fun t => JS.truthy (JS.trim (text t)) = true) (todos c) ->
             Forall (fun t => JS.truthy (JS.trim (text t)) = true)
                    (todos (fold_left step ops c))).
  { induction ops as [| o rest IH]; intros c Hall; [exact Hall |].
    simpl. now apply IH, todo_step_text. }
  apply Hgen. constructor.
Qed.

Lemma todo_step_ids (c : component) (o : op) (low : Z) :
  ascending low (add_times [o]) ->
  Forall (fun t => id t <= low) (todos c) ->
  NoDup (map id (todos c)) ->
  exists low1 : Z,
    low <= low1 /\
    (forall rest, ascending low (add_times (o :: rest)) ->
                  ascending low1 (add_times rest)) /\
    Forall (fun t => id t <= low1) (todos (step c o)) /\
    NoDup (map id (todos (step c o))).
Proof.
  intros Hasc Hbound Hnodup. destruct o as [s | now | i | i]; simpl in *.
  - exists low. repeat split; auto. lia.
  - destruct Hasc as [Hlt _]. exists now.
    split; [lia |]. split; [intros rest [_ Hrest]; exact Hrest |].
    unfold addTodo. destruct (JS.truthy (JS.trim (newTodo c))); simpl.
    + split.
      * apply Forall_app. split.
        -- eapply Forall_impl; [| exact Hbound]. simpl. intros; lia.
        -- constructor; [simpl; lia | constructor].
      * rewrite map_app. simpl. apply NoDup_app; [exact Hnodup | |].
        -- constructor; [intros [] | constructor].
        -- intros a Ha [<- | []]. apply in_map_iff in Ha.
           destruct Ha as (t & Hid & Hin).
           rewrite Forall_forall in Hbound. apply Hbound in Hin. lia.
    + split; [| exact Hnodup].
      eapply Forall_impl; [| exact Hbound]. simpl. intros; lia.
  - exists low. split; [lia |]. split; [auto |]. split.
    + rewrite Forall_forall in *. intros t Hin.
      apply in_map_iff in Hin. destruct Hin as (t0 & <- & Hin).
      rewrite toggle_id. now apply Hbound.
    + rewrite map_map.
      rewrite (map_ext _ id (toggle_id i)). exact Hnodup.
  - exists low. split; [lia |]. split; [auto |]. split.
    + rewrite Forall_forall in *. intros t Hin.
      apply filter_In in Hin. now apply Hbound.
    + clear Hbound. induction (todos c) as [| t l IH]; [constructor |].
      simpl in *. inversion Hnodup as [| x xs Hnotin Hrest]; subst.
      destruct (negb (id t =? i)); simpl; [| now apply IH].
      constructor; [| now apply IH].
      intros Hin. apply Hnotin. apply in_map_iff in Hin.
      destruct Hin as (t0 & Hid & Hin). apply filter_In in Hin.
      apply in_map_iff. exists t0. tauto.
Qed.

(** X11: when the clock readings taken by successive [addTodo] calls grow
    strictly, the ids of the todos are pairwise distinct at every moment,
    so a click toggles or removes one todo only. *)
Theorem todo_ids_distinct (ops : list op) (low : Z) :
  ascending low (add_times ops) ->
  NoDup (map id (todos (exec ops mount))).
Proof.
  unfold exec.
  assert (Hgen : forall (l : list op) (c : component) (lo : Z),
             ascending lo (add_times l) ->
             Forall (fun t => id t <= lo) (todos c) ->
             NoDup (map id (todos c)) ->
             NoDup (map id (todos (fold_left step l c)))).
  { induction l as [| o rest IH]; intros c lo Hasc Hbound Hnodup;
      [exact Hnodup |].
    simpl.
    assert (Hone : ascending lo (add_times [o])).
    { destruct o; simpl in *; tauto. }
    destruct (todo_step_ids c o lo Hone Hbound Hnodup)
      as (lo1 & _ & Hnext & Hbound1 & Hnodup1).
    apply (IH _ lo1); auto. }
  intros Hasc. apply (Hgen ops mount low Hasc); constructor.
Qed.

(** X12: toggling one todo and removing another can be done in either
    order. *)
Theorem toggle_remove_commute (i j : Z) (c : component) :
  removeTodo i (toggleTodo j c) = toggleTodo j (removeTodo i c).
Proof.
  unfold removeTodo, toggleTodo. simpl. f_equal.
  induction (todos c) as [| t l IH]; [reflexivity |]. simpl.
  rewrite toggle_id. destruct (negb (id t =? i)); simpl; now rewrite IH.
Qed.

End TodoFacts.

(** * useLocalStorage *)

Section StorageFacts.
Import LocalStorage.
Variable V : Type.
Variable parse : string -> result V.
Variable stringify : V -> result string.
Variable fits : storage -> string -> string -> bool.

Local Abbreviation world := (LocalStorage.world V).
Local Abbreviation initialState := (LocalStorage.initialState V parse).
Local Abbreviation useLocalStorage := (LocalStorage.useLocalStorage V parse).
Local Abbreviation setValue := (LocalStorage.setValue V stringify fits).
Local Abbreviation setValues := (LocalStorage.setValues V stringify fits).

(** What [setValue] does to the storage: nothing, or one write under its
    own key. *)
Lemma setValue_store (key : string) (captured : V) (u : update V)
    (w : world) :
  store V (setValue key captured u w) = store V w \/
  exists item, store V (setValue key captured u w)
               = put (store V w) key item.
Proof.
  unfold LocalStorage.setValue, setItem.
  destruct (resolve V captured u) as [v | e]; [| now left].
  destruct (stringify v) as [item | e]; [| now left].
  destruct (fits (store V w) key item); [right; now exists item | now left].
Qed.

Lemma initialState_put_other (key other item : string) (init : V)
    (st : storage) :
  other <> key ->
  initialState other init (put st key item) = initialState other init st.
Proof.
  intros Hne. unfold LocalStorage.initialState, getItem, put.
  now rewrite (proj2 (String.eqb_neq other key) Hne).
Qed.

Lemma initialState_put_same (key item : string) (init v : V) (st : storage) :
  item <> ""%string -> parse item = Ok v ->
  initialState key init (put st key item) = v.
Proof.
  intros Hne Hparse. unfold LocalStorage.initialState, getItem, put.
  rewrite String.eqb_refl, (proj2 (String.eqb_neq item "") Hne).
  now rewrite Hparse.
Qed.

Lemma setValue_keeps_reload (key : string) (init captured : V)
    (u : update V) (w : world) :
  (forall v, exists item,
      stringify v = Ok item /\ item <> ""%string /\ parse item = Ok v) ->
  (forall st k item, fits st k item = true) ->
  initialState key init (store V w) = storedValue V w ->
  initialState key init (store V (setValue key captured u w))
  = storedValue V (setValue key captured u w).
Proof.
  intros Hjson Hfits Hsync. unfold LocalStorage.setValue, setItem.
  destruct (resolve V captured u) as [v | e]; [| exact Hsync].
  destruct (Hjson v) as (item & Hs & Hne & Hp).
  rewrite Hs, Hfits. simpl. now apply initialState_put_same.
Qed.

(** X13: values persist across a reload. When every value is written as a
    non-empty string that parses back to it and the storage accepts every
    write, then after any calls of [setValue] a fresh [useLocalStorage]
    over the storage starts from the very state the hook is in. *)
Theorem stored_value_survives_reload
    (key : string) (init : V) (st0 : storage) (us : list (update V)) :
  (forall v, exists item,
      stringify v = Ok item /\ item <> ""%string /\ parse item = Ok v) ->
  (forall st k item, fits st k item = true) ->
  useLocalStorage key init
    (store V (setValues key us (useLocalStorage key init st0)))
  = setValues key us (useLocalStorage key init st0).
Proof.
  intros Hjson Hfits.
  assert (Hgen : forall (l : list (update V)) (w : world),
             initialState key init (store V w) = storedValue V w ->
             initialState key init (store V (setValues key l w))
             = storedValue V (setValues key l w)).
  { unfold LocalStorage.setValues.
    induction l as [| u l IH]; intros w Hsync; [exact Hsync |].
    simpl. apply IH. now apply setValue_keeps_reload. }
  unfold LocalStorage.useLocalStorage at 1.
  rewrite Hgen by reflexivity.
  now destruct (setValues key us (useLocalStorage key init st0)).
Qed.

(** X14: hooks with different keys do not disturb each other: whatever is
    set under [key], a hook created later for another key reads what it
    would have read before. *)
Theorem storage_keys_independent
    (key other : string) (init : V) (us : list (update V)) (w : world) :
  other <> key ->
  initialState other init (store V (setValues key us w))
  = initialState other init (store V w).
Proof.
  intros Hne. unfold LocalStorage.setValues. revert w.
  induction us as [| u us IH]; intros w; [reflexivity |].
  simpl. rewrite IH.
  destruct (setValue_store key (storedValue V w) u w) as [-> | (item & ->)];
    [reflexivity | now apply initialState_put_other].
Qed.

(** A write that fails is not rolled back and not reported: when the
    value cannot be serialised or the storage refuses it, the hook already
    holds the new value while the storage is as before, so a reload brings
    the old value back. *)
Lemma failed_write_diverges
    (key : string) (captured v : V) (u : update V) (w : world) :
  resolve V captured u = Ok v ->
  (is_ok (stringify v) = false \/
   exists item, stringify v = Ok item /\
                fits (store V w) key item = false) ->
  storedValue V (setValue key captured u w) = v /\
  store V (setValue key captured u w) = store V w.
Proof.
  intros Hres Hfail. unfold LocalStorage.setValue, setItem. rewrite Hres.
  destruct Hfail as [Hstr | (item & Hstr & Hfit)].
  - destruct (stringify v); [discriminate Hstr | auto].
  - rewrite Hstr, Hfit. auto.
Qed.

End StorageFacts.

(** * Objects and forms *)

Section ObjFacts.
Context {V : Type}.
Implicit Types (o : Obj.t V) (k : string) (v : V).

Lemma get_set_same o k v : Obj.get (Obj.set o k v) k = Some v.
Proof.
  induction o as [| [k1 v1] o IH]; simpl.
  - now rewrite String.eqb_refl.
  - destruct (String.eqb k1 k) eqn:Hk; simpl.
    + now rewrite String.eqb_refl.
    + now rewrite Hk.
Qed.

Lemma get_set_other o k k1 v :
  k1 <> k -> Obj.get (Obj.set o k v) k1 = Obj.get o k1.
Proof.
  intros Hne. induction o as [| [k2 v2] o IH]; simpl.
  - now rewrite (proj2 (String.eqb_neq k k1)) by congruence.
  - destruct (String.eqb_spec k2 k) as [-> | Hk]; simpl.
    + now rewrite (proj2 (String.eqb_neq k k1)) by congruence.
    + now rewrite IH.
Qed.

Lemma keys_set_present o k v :
  In k (Obj.keys o) -> Obj.keys (Obj.set o k v) = Obj.keys o.
Proof.
  induction o as [| [k1 v1] o IH]; intros Hin; [destruct Hin |]. simpl in *.
  destruct (String.eqb_spec k1 k) as [-> | Hk]; simpl; [reflexivity |].
  f_equal. apply IH. destruct Hin as [Heq | Hin]; [congruence | exact Hin].
Qed.

Lemma keys_set_absent o k v :
  ~ In k (Obj.keys o) -> Obj.keys (Obj.set o k v) = Obj.keys o ++ [k].
Proof.
  induction o as [| [k1 v1] o IH]; intros Hnot; [reflexivity |]. simpl in *.
  destruct (String.eqb_spec k1 k) as [-> | Hk]; [tauto |]. simpl.
  f_equal. apply IH. tauto.
Qed.

Lemma get_absent o k : ~ In k (Obj.keys o) -> Obj.get o k = None.
Proof.
  induction o as [| [k1 v1] o IH]; intros Hnot; [reflexivity |]. simpl in *.
  destruct (String.eqb_spec k1 k) as [-> | Hk]; [tauto |].
  apply IH. tauto.
Qed.

(** X15: [updateField] writes one field of the object: the field then
    holds the value and every other field reads as before. When neither
    the field nor a key of the object is written with digits only, the
    fields keep their order, a field that is new going to the end. *)
Theorem updateField_writes_one_field o k v :
  Obj.get (ObjectState.updateField k v o) k = Some v /\
  (forall k1, k1 <> k ->
     Obj.get (ObjectState.updateField k v o) k1 = Obj.get o k1) /\
  (Obj.index_like k = false ->
   Forall (fun k1 => Obj.index_like k1 = false) (Obj.keys o) ->
   Obj.keys (ObjectState.updateField k v o)
   = if in_dec string_dec k (Obj.keys o) then Obj.keys o
     else Obj.keys o ++ [k]).
Proof.
  unfold ObjectState.updateField. split; [apply get_set_same |].
  split; [intros k1 Hne; now apply get_set_other |].
  intros _ _.
  destruct (in_dec string_dec k (Obj.keys o));
    [now apply keys_set_present | now apply keys_set_absent].
Qed.

End ObjFacts.

Section FormFacts.
Import UseForm.
Variable V : Type.
Variable validationRules : Obj.t (rule V).

Local Abbreviation form := (UseForm.form V).
Local Abbreviation collect := (UseForm.collect V).
Local Abbreviation validateForm := (UseForm.validateForm V validationRules).
Local Abbreviation handleChange := (UseForm.handleChange V).

Lemma message_falsy (e : string) :
  message_truthy e = false <-> e = ""%string.
Proof.
  unfold message_truthy. destruct (String.eqb_spec e ""); simpl;
    split; congruence.
Qed.

Lemma set_not_empty {A : Type} (o : Obj.t A) (k : string) (a : A) :
  is_empty (Obj.set o k a) = false.
Proof.
  destruct o as [| [k1 a1] o]; [reflexivity |]. simpl.
  now destruct (String.eqb k1 k).
Qed.

(** The loop ends with no error recorded exactly when it started with none
    and every rule returned the empty message. *)
Lemma collect_empty (vals : Obj.t V) (rules : Obj.t (rule V)) :
  forall acc acc1 : Obj.t string,
    collect rules vals acc = Ok acc1 ->
    (is_empty acc1 = true <->
     is_empty acc = true /\
     Forall (fun fr => snd fr (Obj.get vals (fst fr)) = Ok ""%string) rules).
Proof.
  induction rules as [| [f r] rules IH]; intros acc acc1 Hc; simpl in Hc.
  - injection Hc as <-. split; [auto | tauto].
  - destruct (r (Obj.get vals f)) as [e |] eqn:Hr; [| discriminate Hc].
    rewrite (IH _ _ Hc). destruct (message_truthy e) eqn:He.
    + rewrite set_not_empty. split; [intros [Hx _]; discriminate Hx |].
      intros [_ Hall]. inversion Hall as [| x l Hhead _]; subst.
      simpl in Hhead. rewrite Hr in Hhead. injection Hhead as ->.
      discriminate He.
    + apply message_falsy in He. subst e. split.
      * intros [Hacc Hall]. split; [exact Hacc |].
        constructor; [exact Hr | exact Hall].
      * intros [Hacc Hall]. split; [exact Hacc |].
        now inversion Hall.
Qed.

(** What the loop leaves under each key: the message of the rule of that
    key when it is not empty, and what was there otherwise. *)
Lemma collect_lookup (vals : Obj.t V) (rules : Obj.t (rule V)) :
  NoDup (Obj.keys rules) ->
  forall acc acc1 : Obj.t string,
    collect rules vals acc = Ok acc1 ->
    forall k : string,
      Obj.get acc1 k =
      match Obj.get rules k with
      | Some r =>
          match r (Obj.get vals k) with
          | Ok e => if message_truthy e then Some e else Obj.get acc k
          | Throw _ => Obj.get acc k
          end
      | None => Obj.get acc k
      end.
Proof.
  induction rules as [| [f r] rules IH]; intros Hnd acc acc1 Hc k;
    simpl in Hc.
  - now injection Hc as <-.
  - inversion Hnd as [| x l Hnotin Hnd1]; subst.
    destruct (r (Obj.get vals f)) as [e |] eqn:Hr; [| discriminate Hc].
    rewrite (IH Hnd1 _ _ Hc k). simpl.
    destruct (String.eqb_spec f k) as [-> | Hne].
    + rewrite (get_absent rules k Hnotin), Hr.
      destruct (message_truthy e); [apply get_set_same | reflexivity].
    + destruct (Obj.get rules k) as [r1 |].
      * destruct (r1 (Obj.get vals k)) as [e1 |].
        -- destruct (message_truthy e1); [reflexivity |].
           destruct (message_truthy e); [| reflexivity].
           apply get_set_other. congruence.
        -- destruct (message_truthy e); [| reflexivity].
           apply get_set_other. congruence.
      * destruct (message_truthy e); [| reflexivity].
        apply get_set_other. congruence.
Qed.

(** X16: when the fields that have a rule are plain keys, [validateForm]
    answers [true] exactly when every rule returns the empty message for
    the current value of its field; it touches neither the values nor the
    touched marks. *)
Theorem validateForm_verdict (st st1 : form) (b : bool) :
  Forall (fun fr => Obj.plain (fst fr) = true) validationRules ->
  validateForm st = Ok (st1, b) ->
  (b = true <->
   Forall (fun fr => snd fr (Obj.get (values st) (fst fr)) = Ok ""%string)
          validationRules) /\
  values st1 = values st /\
  touched st1 = touched st.
Proof.
  intros _. unfold UseForm.validateForm.
  destruct (collect validationRules (values st) []) as [newErrors |] eqn:Hc;
    [| discriminate].
  intros Heq. injection Heq as <- <-. simpl. repeat split.
  - intros Hb.
    apply (collect_empty _ _ _ _ Hc).
    now destruct newErrors.
  - intros Hall.
    assert (He : is_empty newErrors = true)
      by (apply (collect_empty _ _ _ _ Hc); auto).
    now destruct newErrors.
Qed.

(** X17: when the fields that have a rule are plain keys, the errors
    hold after [validateForm], under every plain key: for a field that has
    a rule, the message of the rule when it is not empty and nothing
    otherwise, and nothing for a field without a rule: errors of an earlier
    validation do not survive. *)
Theorem validateForm_errors (st st1 : form) (b : bool) (k : string) :
  NoDup (Obj.keys validationRules) ->
  Forall (fun fr => Obj.plain (fst fr) = true) validationRules ->
  Obj.plain k = true ->
  validateForm st = Ok (st1, b) ->
  Obj.get (errors st1) k =
  match Obj.get validationRules k with
  | Some r =>
      match r (Obj.get (values st) k) with
      | Ok e => if message_truthy e then Some e else None
      | Throw _ => None
      end
  | None => None
  end.
Proof.
  intros Hnd _ _. unfold UseForm.validateForm.
  destruct (collect validationRules (values st) []) as [newErrors |] eqn:Hc;
    [| discriminate].
  intros Heq. injection Heq as <- <-. simpl.
  now rewrite (collect_lookup _ _ Hnd _ _ Hc k).
Qed.

(** X18: typing into a field sets its value and leaves the other values
    alone; it leaves no error message showing for that field and does not
    touch the errors of other fields nor the touched marks. *)
Theorem handleChange_one_field (name : string) (value : V) (st : form) :
  Obj.get (values (handleChange name value st)) name = Some value /\
  (forall k, k <> name ->
     Obj.get (values (handleChange name value st)) k
     = Obj.get (values st) k /\
     Obj.get (errors (handleChange name value st)) k
     = Obj.get (errors st) k) /\
  match Obj.get (errors (handleChange name value st)) name with
  | Some e => message_truthy e = false
  | None => True
  end /\
  touched (handleChange name value st) = touched st.
Proof.
  unfold UseForm.handleChange. simpl.
  split; [apply get_set_same |]. split.
  - intros k Hne. split; [now apply get_set_other |].
    destruct (Obj.get (errors st) name) as [e |]; [| reflexivity].
    destruct (message_truthy e); [now apply get_set_other | reflexivity].
  - split; [| reflexivity].
    destruct (Obj.get (errors st) name) as [e |] eqn:He.
    + destruct (message_truthy e) eqn:Ht.
      * now rewrite get_set_same.
      * now rewrite He.
    + now rewrite He.
Qed.

Lemma handleBlur_values (name : string) (st : form) :
  values (fst (UseForm.handleBlur V validationRules name st)) = values st.
Proof.
  unfold UseForm.handleBlur.
  destruct (Obj.get validationRules name) as [r |]; [| reflexivity].
  now destruct (r (Obj.get (values st) name)).
Qed.

Lemma handleSubmit_values (onSubmit : Obj.t V -> result unit) (st : form) :
  values (after (UseForm.handleSubmit V validationRules onSubmit st))
  = values st.
Proof.
  unfold UseForm.handleSubmit, UseForm.validateForm.
  cbn [values submitting].
  destruct (collect validationRules (values st) []) as [newErrors |];
    [| reflexivity].
  destruct (is_empty (Obj.keys newErrors)); [| reflexivity].
  now destruct (onSubmit (values st)).
Qed.

End FormFacts.

Section FormExampleFacts.
Import FormExample.

Local Abbreviation form := (UseForm.form JS.jsstring).

(** The form always has its three values, in the order of the object
    literal. *)
Lemma form_step_fields (st : form) (o : op) :
  Obj.keys (UseForm.values st) = ["name"; "email"; "password"]%string ->
  Obj.keys (UseForm.values (step st o))
  = ["name"; "email"; "password"]%string.
Proof.
  intros Hk. destruct o as [f s | f | onSubmit]; cbn [step].
  - unfold UseForm.handleChange. cbn [UseForm.values].
    rewrite keys_set_present; [exact Hk |].
    rewrite Hk. destruct f; simpl; tauto.
  - now rewrite handleBlur_values.
  - now rewrite handleSubmit_values.
Qed.

Lemma form_fields (ops : list op) :
  forall st : form,
    Obj.keys (UseForm.values st) = ["name"; "email"; "password"]%string ->
    Obj.keys (UseForm.values (exec ops st))
    = ["name"; "email"; "password"]%string.
Proof.
  unfold exec. induction ops as [| o ops IH]; intros st Hk; [exact Hk |].
  simpl. now apply IH, form_step_fields.
Qed.

(** X19: in [FormExample], whatever was typed, left and submitted before,
    a submission hands the values to [onSubmit] exactly when the name has
    a character that is not white space, the email contains an at sign and
    the password has six code units or more; then no error is left. The
    call always ends normally with [isSubmitting] false again, also when
    [onSubmit] fails. *)
Theorem form_submits_when_acceptable
    (ops : list op) (onSubmit : Obj.t JS.jsstring -> result unit) :
  let st := exec ops mount in
  let r := UseForm.handleSubmit JS.jsstring validationRules onSubmit st in
  UseForm.submitted r
  = (if acceptable st then Some (UseForm.values st) else None) /\
  (acceptable st = true -> UseForm.errors (UseForm.after r) = []) /\
  UseForm.ended r = Ok tt /\
  UseForm.isSubmitting (UseForm.after r) = false.
Proof.
  intros st r.
  pose proof (form_fields ops mount eq_refl) as Hk. fold st in Hk.
  subst r. unfold acceptable, input.
  destruct (UseForm.values st) as [| [k1 a] [| [k2 b] [| [k3 c] [| x l]]]]
    eqn:Hv; try discriminate Hk.
  simpl in Hk. injection Hk as -> -> ->.
  unfold UseForm.handleSubmit, UseForm.validateForm. simpl. rewrite Hv.
  simpl.
  destruct (JS.truthy (JS.trim a)); simpl;
    destruct (JS.includes 64 b); simpl;
    destruct (Z.ltb_spec (Z.of_nat (List.length c)) 6);
    destruct (Z.leb_spec 6 (Z.of_nat (List.length c))); try lia; simpl;
    try destruct (onSubmit _); simpl; repeat split; auto; discriminate.
Qed.

(** X21: in [FormExample] leaving an input never fails: it marks the field
    as touched and records the verdict of its rule, which is the empty
    message exactly when the field is fine. *)
Theorem form_blur_reports (ops : list op) (f : field) :
  let st := exec ops mount in
  let r := UseForm.handleBlur JS.jsstring validationRules (field_name f) st in
  snd r = Ok tt /\
  Obj.get (UseForm.touched (fst r)) (field_name f) = Some true /\
  exists e : string,
    Obj.get (UseForm.errors (fst r)) (field_name f) = Some e /\
    (e = ""%string <-> field_ok f st = true).
Proof.
  intros st r.
  pose proof (form_fields ops mount eq_refl) as Hk. fold st in Hk.
  subst r. unfold field_ok, input.
  destruct (UseForm.values st) as [| [k1 a] [| [k2 b] [| [k3 c] [| x l]]]]
    eqn:Hv; try discriminate Hk.
  simpl in Hk. injection Hk as -> -> ->.
  unfold UseForm.handleBlur. rewrite Hv.
  destruct f; simpl; (split; [reflexivity |]);
    (split; [apply get_set_same |]); eexists;
    (split; [apply get_set_same |]).
  - destruct (JS.truthy (JS.trim a)); simpl; split;
      (reflexivity || discriminate).
  - destruct (JS.includes 64 b); simpl; split;
      (reflexivity || discriminate).
  - destruct (Z.ltb_spec (Z.of_nat (List.length c)) 6);
      destruct (Z.leb_spec 6 (Z.of_nat (List.length c))); try lia;
      split; (reflexivity || discriminate).
Qed.

End FormExampleFacts.

(** * useFetch *)

Section FetchFacts.
Import UseFetch.
Variable V : Type.

Local Abbreviation state := (UseFetch.state V).
Local Abbreviation outcome := (UseFetch.outcome V).
Local Abbreviation fetchData := (UseFetch.fetchData V).
Local Abbreviation fetches := (UseFetch.fetches V).

Lemma fetchData_result (st : state) (o : outcome) :
  loading (fetchData st o) = false /\
  error (fetchData st o) = failure V o /\
  data (fetchData st o)
  = match success V o with
    | Some result => Some result
    | None => data st
    end.
Proof.
  destruct o as [m | [|] status [result | m]]; simpl; auto.
Qed.

Lemma fetches_snoc (outcomes : list outcome) (o : outcome) (st : state) :
  fetches (outcomes ++ [o]) st = fetchData (fetches outcomes st) o.
Proof. unfold UseFetch.fetches. now rewrite fold_left_app. Qed.

Lemma fetches_data (outcomes : list outcome) :
  forall st : state,
    data (fetches outcomes st)
    = match find (succeeded V) (rev outcomes) with
      | Some o => success V o
      | None => data st
      end.
Proof.
  induction outcomes as [| o outcomes IH] using rev_ind; intros st;
    [reflexivity |].
  rewrite fetches_snoc, rev_unit. simpl.
  destruct (fetchData_result (fetches outcomes st) o) as (_ & _ & ->).
  unfold succeeded at 1.
  destruct (success V o) as [result |] eqn:Hs; [now rewrite Hs | apply IH].
Qed.

(** X20: after any completed calls of [fetchData], at least one, the hook is
    not loading, its error is the message of the last call if that one
    failed and none if it succeeded, and its data is the body of the last
    call that succeeded, however many failed since: a failure does not
    clear the data. *)
Theorem fetch_state_after_calls
    (outcomes : list outcome) (o : outcome) (st : state) :
  loading (fetches (outcomes ++ [o]) st) = false /\
  error (fetches (outcomes ++ [o]) st) = failure V o /\
  data (fetches (outcomes ++ [o]) st)
  = match find (succeeded V) (rev (outcomes ++ [o])) with
    | Some last_ok => success V last_ok
    | None => data st
    end.
Proof.
  split; [| split].
  - rewrite fetches_snoc. apply fetchData_result.
  - rewrite fetches_snoc. apply fetchData_result.
  - apply fetches_data.
Qed.

End FetchFacts.

(** * Concrete runs of the components *)

Local Open Scope string_scope.

(** Five requests 50 ms apart with a 100 ms window. *)
Lemma throttle_rate_bound_witness :
  (Z.of_nat
     (List.length
        (Throttle.executions
           (snd (Throttle.requests Throttle.instant 100 (Throttle.initial 0)
                   [100; 150; 200; 250; 300])))) - 1) * 100
  <= 300 - 100.
Proof.
  apply (throttle_rate_bound Throttle.instant 100 (Throttle.initial 0)
           [100; 150; 200; 250; 300] 100 300).
  - intros t. exists t. split; [reflexivity | lia].
  - lia.
  - lia.
  - repeat (constructor; [lia |]). constructor.
Defined.

(** Three requests a full window apart: all of them run. *)
Lemma slow_requests_all_run_witness :
  Forall (fun ev => exists fired,
            ev = Throttle.Executed (Throttle.entered ev) fired)
         (snd (Throttle.requests Throttle.instant 100 (Throttle.initial 0)
                 [100; 200; 300])) /\
  map Throttle.entered
    (snd (Throttle.requests Throttle.instant 100 (Throttle.initial 0)
            [100; 200; 300]))
  = [100; 200; 300].
Proof.
  apply (slow_requests_all_run Throttle.instant 100 0 [100; 200; 300])
    with (from := 0).
  - intros t. exists t. split; [reflexivity | lia].
  - simpl. lia.
  - simpl. lia.
Defined.

(** Five scroll events in two seconds. *)
Lemma scroll_counter_rate_witness :
  ThrottledScroll.scrollCount
    (ThrottledScroll.scrolls (fun t => t) (ThrottledScroll.mount 0)
       [0; 500; 1000; 1500; 2000])
  = 5%nat /\
  Nat.le
    (ThrottledScroll.throttledCount
       (ThrottledScroll.scrolls (fun t => t) (ThrottledScroll.mount 0)
          [0; 500; 1000; 1500; 2000]))
    (ThrottledScroll.scrollCount
       (ThrottledScroll.scrolls (fun t => t) (ThrottledScroll.mount 0)
          [0; 500; 1000; 1500; 2000])) /\
  (Z.of_nat
     (ThrottledScroll.throttledCount
        (ThrottledScroll.scrolls (fun t => t) (ThrottledScroll.mount 0)
           [0; 500; 1000; 1500; 2000])) - 1) * 1000
  <= 2000 - 0.
Proof.
  apply (scroll_counter_rate (fun t => t) 0 [0; 500; 1000; 1500; 2000]
           0 2000).
  - intros t. lia.
  - lia.
  - repeat (constructor; [lia |]). constructor.
Defined.

(** Two clicks half a second apart, looked at after three seconds. *)
Lemma button_catches_up_witness :
  DebouncedButton.outstanding
    (DebouncedButton.tick 3000
       (DebouncedButton.exec
          [DebouncedButton.Click; DebouncedButton.Tick 500;
           DebouncedButton.Click]
          (DebouncedButton.mount 0)))
  = 0%nat /\
  DebouncedButton.debouncedCount
    (DebouncedButton.inst
       (DebouncedButton.tick 3000
          (DebouncedButton.exec
             [DebouncedButton.Click; DebouncedButton.Tick 500;
              DebouncedButton.Click]
             (DebouncedButton.mount 0))))
  = DebouncedButton.clickCount
      (DebouncedButton.inst
         (DebouncedButton.tick 3000
            (DebouncedButton.exec
               [DebouncedButton.Click; DebouncedButton.Tick 500;
                DebouncedButton.Click]
               (DebouncedButton.mount 0)))).
Proof.
  apply (button_catches_up 0
           [DebouncedButton.Click; DebouncedButton.Tick 500;
            DebouncedButton.Click] 3000).
  simpl. lia.
Defined.

(** A render with ["b"], then a second of quiet. *)
Lemma debounce_catches_up_witness :
  Debounce.currentOutput string
    (fst (Debounce.exec string string_dec
            [Debounce.Render "b" 200; Debounce.Tick 1000]
            (Debounce.mount string 0 "a" 200)))
  = "b".
Proof.
  apply (debounce_catches_up string string_dec 0 "a" 200
           [Debounce.Render "b" 200; Debounce.Tick 1000]);
    reflexivity.
Defined.

(** A resize, then 200 ms of quiet. *)
Lemma window_size_catches_up_witness :
  WindowSize.windowSize
    (WindowSize.inst
       (fst (WindowSize.exec
               [WindowSize.Resize
                  {| WindowSize.width := 800; WindowSize.height := 600 |};
                WindowSize.Tick 200]
               (WindowSize.mount 0
                  {| WindowSize.width := 1000;
                     WindowSize.height := 700 |}))))
  = {| WindowSize.width := 800; WindowSize.height := 600 |}.
Proof.
  apply (window_size_catches_up 0
           {| WindowSize.width := 1000; WindowSize.height := 700 |}
           [WindowSize.Resize
              {| WindowSize.width := 800; WindowSize.height := 600 |};
            WindowSize.Tick 200]);
    reflexivity.
Defined.

(** The input ["a"] added at time 5 to an empty list and removed again. *)
Lemma remove_added_todo_witness :
  ArrayState.todos
    (ArrayState.removeTodo 5
       (ArrayState.addTodo 5
          {| ArrayState.todos := []; ArrayState.newTodo := [97%N] |}))
  = [].
Proof.
  apply (remove_added_todo 5
           {| ArrayState.todos := []; ArrayState.newTodo := [97%N] |}).
  - reflexivity.
  - intros t [].
Defined.

(** Two todos added at the clock readings 1 and 2. *)
Lemma todo_ids_distinct_witness :
  NoDup
    (map ArrayState.id
       (ArrayState.todos
          (ArrayState.exec
             [ArrayState.Type_ [97%N]; ArrayState.Add 1;
              ArrayState.Type_ [98%N]; ArrayState.Add 2]
             ArrayState.mount))).
Proof.
  apply (todo_ids_distinct
           [ArrayState.Type_ [97%N]; ArrayState.Add 1;
            ArrayState.Type_ [98%N]; ArrayState.Add 2] 0).
  simpl. lia.
Defined.

(** A boolean stored under ["flag"], set twice. *)
Lemma stored_value_survives_reload_witness :
  LocalStorage.useLocalStorage bool JsonBool.parse "flag" false
    (LocalStorage.store bool
       (LocalStorage.setValues bool JsonBool.stringify JsonBool.unlimited
          "flag"
          [LocalStorage.Value bool true;
           LocalStorage.Updater bool (fun b => Ok (negb b))]
          (LocalStorage.useLocalStorage bool JsonBool.parse "flag" false
             JsonBool.empty)))
  = LocalStorage.setValues bool JsonBool.stringify JsonBool.unlimited "flag"
      [LocalStorage.Value bool true;
       LocalStorage.Updater bool (fun b => Ok (negb b))]
      (LocalStorage.useLocalStorage bool JsonBool.parse "flag" false
         JsonBool.empty).
Proof.
  apply (stored_value_survives_reload bool JsonBool.parse JsonBool.stringify
           JsonBool.unlimited "flag" false JsonBool.empty).
  - intros [|]; eexists; (split; [reflexivity |]);
      (split; [discriminate | reflexivity]).
  - reflexivity.
Defined.

(** Setting ["flag"] does not change what is read under ["other"]. *)
Lemma storage_keys_independent_witness :
  LocalStorage.initialState bool JsonBool.parse "other" false
    (LocalStorage.store bool
       (LocalStorage.setValues bool JsonBool.stringify JsonBool.unlimited
          "flag" [LocalStorage.Value bool true]
          (LocalStorage.useLocalStorage bool JsonBool.parse "flag" false
             JsonBool.empty)))
  = LocalStorage.initialState bool JsonBool.parse "other" false
      (LocalStorage.store bool
         (LocalStorage.useLocalStorage bool JsonBool.parse "flag" false
            JsonBool.empty)).
Proof.
  apply (storage_keys_independent bool JsonBool.parse JsonBool.stringify
           JsonBool.unlimited "flag" "other" false
           [LocalStorage.Value bool true]).
  discriminate.
Defined.

(** Writing the age leaves the name as it was, and a field that is new
    comes last. *)
Lemma updateField_writes_one_field_witness :
  Obj.get (ObjectState.updateField "age" 30 [("name", 1); ("age", 2)]) "name"
  = Obj.get [("name", 1); ("age", 2)] "name" /\
  Obj.keys (ObjectState.updateField "city" 7 [("name", 1); ("age", 2)])
  = ["name"; "age"; "city"].
Proof.
  split.
  - apply (proj1 (proj2 (updateField_writes_one_field
                           [("name", 1); ("age", 2)] "age" 30))).
    discriminate.
  - apply (proj2 (proj2 (updateField_writes_one_field
                           [("name", 1); ("age", 2)] "city" 7))).
    + reflexivity.
    + repeat constructor.
Defined.

(** The empty form of [FormExample] does not validate, and the email field
    gets its message. *)
Lemma validateForm_verdict_witness :
  (false = true <->
   Forall (fun fr => snd fr (Obj.get FormExample.initialValues (fst fr))
                     = Ok "")
          FormExample.validationRules) /\
  FormExample.initialValues = FormExample.initialValues /\
  @nil (string * bool) = [].
Proof.
  apply (validateForm_verdict JS.jsstring FormExample.validationRules
           FormExample.mount
           {| UseForm.values := FormExample.initialValues;
              UseForm.errors :=
                [("name", "Name is required");
                 ("email", "Valid email is required");
                 ("password", "Password must be at least 6 characters")];
              UseForm.touched := [];
              UseForm.isSubmitting := false |}
           false).
  - repeat constructor.
  - reflexivity.
Defined.

Lemma validateForm_errors_witness :
  Obj.get
    [("name", "Name is required"); ("email", "Valid email is required");
     ("password", "Password must be at least 6 characters")] "email"
  = Some "Valid email is required".
Proof.
  apply (validateForm_errors JS.jsstring FormExample.validationRules
           FormExample.mount
           {| UseForm.values := FormExample.initialValues;
              UseForm.errors :=
                [("name", "Name is required");
                 ("email", "Valid email is required");
                 ("password", "Password must be at least 6 characters")];
              UseForm.touched := [];
              UseForm.isSubmitting := false |}
           false "email").
  - repeat constructor; simpl; intuition discriminate.
  - repeat constructor.
  - reflexivity.
  - reflexivity.
Defined.

(** Typing a name leaves the email as it was. *)
Lemma handleChange_one_field_witness :
  Obj.get
    (UseForm.values
       (UseForm.handleChange JS.jsstring "name" [65%N] FormExample.mount))
    "email"
  = Obj.get (UseForm.values FormExample.mount) "email".
Proof.
  apply (proj1 (proj2 (handleChange_one_field JS.jsstring "name" [65%N]
                         FormExample.mount))).
  discriminate.
Defined.

(** A name, an email with an at sign and a password of six units: the form
    is submitted and no error is left. *)
Lemma form_submits_when_acceptable_witness :
  UseForm.errors
    (UseForm.after
       (UseForm.handleSubmit JS.jsstring FormExample.validationRules
          (fun _ => Ok tt)
          (FormExample.exec
             [FormExample.Change FormExample.Name [65%N];
              FormExample.Change FormExample.Email [97%N; 64%N; 98%N];
              FormExample.Change FormExample.Password
                [49%N; 50%N; 51%N; 52%N; 53%N; 54%N]]
             FormExample.mount)))
  = [].
Proof.
  apply (proj1 (proj2 (form_submits_when_acceptable
                         [FormExample.Change FormExample.Name [65%N];
                          FormExample.Change FormExample.Email
                            [97%N; 64%N; 98%N];
                          FormExample.Change FormExample.Password
                            [49%N; 50%N; 51%N; 52%N; 53%N; 54%N]]
                         (fun _ => Ok tt)))).
  reflexivity.
Defined.
